(** * Comment threading of the discussion component

    A shallow embedding of [buildCommentTree] and of the values derived from
    it in [CommentSection] (src/components/CommentSection.tsx), together with
    the submission helpers [createComment] and [createReply].

    The builder allocates one node object per input comment, keeps a
    [Map] from comment id to node object, and then pushes *references* to
    those objects into [children] arrays and into [roots].  The embedding
    keeps that sharing: node objects live in a store addressed by allocation
    order, and [children] and [roots] hold addresses. *)

From stdpp Require Import gmap strings list.

Local Open Scope Z_scope.

(** ** Data model *)

(** [interface Comment].  Identifiers are integers issued by the backend. *)
Record Comment := mkComment {
  id : Z;
  post_id : Z;
  parent_comment_id : option Z;      (* number | null *)
  content : string;
  user_id : string;
  created_at : string;
  author : string
}.

#[global] Instance Comment_eq_dec : EqDecision Comment.
Proof. solve_decision. Defined.

(** An address in the store of node objects. *)
Abbreviation addr := nat.

(** [Comment & { children?: Comment[] }]: the copied fields and the array
    of references to the reply nodes. *)
Record Node := mkNode {
  fields : Comment;
  children : list addr
}.

#[global] Instance Node_eq_dec : EqDecision Node.
Proof. solve_decision. Defined.

(** What [buildCommentTree] hands back: the [roots] array; the node objects
    its entries point to are kept next to it. *)
Record Forest := mkForest {
  nodes : list Node;
  roots : list addr
}.

(** JavaScript truthiness of a [number | null]: [null] and [0] are falsy. *)
Definition truthy (p : option Z) : bool :=
  match p with
  | Some n => negb (n =? 0)
  | None => false
  end.

(** JavaScript truthiness of a [string | undefined]. *)
Definition truthy_str (s : option string) : bool :=
  match s with
  | Some EmptyString => false
  | Some _ => true
  | None => false
  end.

(** ** The builder *)

(** [Array.prototype.forEach] with a callback that updates local state; the
    callback may fail where the source uses a non-null assertion. *)
Fixpoint forEach {S : Type} (f : Comment → S → option S)
    (flatComments : list Comment) (s : S) : option S :=
  match flatComments with
  | [] => Some s
  | comment :: rest => s' ← f comment s; forEach f rest s'
  end.

(** First loop body: [map.set(comment.id, { ...comment, children: [] })]. *)
Definition set_node (comment : Comment) (st : gmap Z addr * list Node)
    : option (gmap Z addr * list Node) :=
  let '(map, store) := st in
  Some (<[id comment := length store]> map, store ++ [mkNode comment []]).

(** [parent.children!.push(child)] on the object at address [parent]. *)
Definition push_child (parent child : addr) (store : list Node)
    : option (list Node) :=
  nd ← store !! parent;
  Some (<[parent := mkNode (fields nd) (children nd ++ [child])]> store).

(** Second loop body. *)
Definition link (map : gmap Z addr) (comment : Comment)
    (st : list Node * list addr) : option (list Node * list addr) :=
  let '(store, roots) := st in
  if truthy (parent_comment_id comment) then
    match parent_comment_id comment ≫= (map !!.) with
    | Some parent =>
        self ← map !! id comment;
        store' ← push_child parent self store;
        Some (store', roots)
    | None => Some (store, roots)
    end
  else
    self ← map !! id comment;
    Some (store, roots ++ [self]).

Definition buildCommentTree (flatComments : list Comment) : option Forest :=
  '(map, store) ← forEach set_node flatComments (∅, []);
  '(store', roots) ← forEach (link map) flatComments (store, []);
  Some (mkForest store' roots).

(** ** The reference algorithm of the specification

    Same first pass; in the second pass a comment is appended to its
    parent's children when its [parent_comment_id] is present and resolves
    in the lookup, and to the roots list otherwise. *)
Definition link_spec (map : gmap Z addr) (comment : Comment)
    (st : list Node * list addr) : option (list Node * list addr) :=
  let '(store, roots) := st in
  match parent_comment_id comment ≫= (map !!.) with
  | Some parent =>
      self ← map !! id comment;
      store' ← push_child parent self store;
      Some (store', roots)
  | None =>
      self ← map !! id comment;
      Some (store, roots ++ [self])
  end.

Definition buildCommentTree_spec (flatComments : list Comment)
    : option Forest :=
  '(map, store) ← forEach set_node flatComments (∅, []);
  '(store', roots) ← forEach (link_spec map) flatComments (store, []);
  Some (mkForest store' roots).

(** ** Reading a forest *)

(** The comment a reference points to. *)
Definition deref (F : Forest) (a : addr) : option Comment :=
  fields <$> nodes F !! a.

(** The nodes met when walking down from [front] level by level: the nodes
    of [front], then their children, then the children of those, and so on.
    A node is listed once for every path leading to it.  The walk needs one
    unit of fuel per level and fails when it runs out or meets a reference
    outside the store. *)
Fixpoint descend (fuel : nat) (store : list Node) (front : list addr)
    : option (list addr) :=
  match front with
  | [] => Some []
  | _ :: _ =>
      match fuel with
      | O => None
      | S fuel' =>
          nds ← mapM (store !!.) front;
          below ← descend fuel' store (nds ≫= children);
          Some (front ++ below)
      end
  end.

(** The id stored at an address. *)
Definition id_at (store : list Node) (a : addr) : option Z :=
  id <$> (fields <$> store !! a).

(** Ids of the roots and of all their descendants, with multiplicity. *)
Definition forest_ids (fuel : nat) (F : Forest) : option (list Z) :=
  reach ← descend fuel (nodes F) (roots F);
  mapM (id_at (nodes F)) reach.

(** The same forest as a value: a node with the trees of its replies, the
    shape of [Comment & { children?: Comment[] }] that [CommentItem] renders
    recursively.  Unfolding needs one unit of fuel per generation and fails
    when it runs out, as it does on a node that is its own descendant. *)
#[warnings="-register-all"] Inductive Tree :=
  | TreeNode (comment : Comment) (replies : list Tree).

Fixpoint unfold (fuel : nat) (store : list Node) (a : addr) : option Tree :=
  match fuel with
  | O => None
  | S fuel' =>
      nd ← store !! a;
      replies ← mapM (unfold fuel' store) (children nd);
      Some (TreeNode (fields nd) replies)
  end.

Definition forest_trees (fuel : nat) (F : Forest) : option (list Tree) :=
  mapM (unfold fuel (nodes F)) (roots F).

(** Ids of a tree, the node before its replies. *)
Fixpoint tree_ids (t : Tree) : list Z :=
  match t with
  | TreeNode c replies => id c :: (replies ≫= tree_ids)
  end.

(** ** Derived values of [CommentSection] *)

(** [comments] is [undefined] until the query has data. *)
Definition commentTree (comments : option (list Comment)) : option Forest :=
  match comments with
  | Some cs => buildCommentTree cs
  | None => Some (mkForest [] [])
  end.

(** [comments?.length || 0] *)
Definition totalComments (comments : option (list Comment)) : nat :=
  match comments with
  | Some cs => if decide (length cs = 0%nat) then 0%nat else length cs
  | None => 0%nat
  end.

(** [commentTree.length] *)
Definition rootComments (comments : option (list Comment)) : option nat :=
  F ← commentTree comments; Some (length (roots F)).

(** ** Submitting comments and replies *)

(** [interface NewComment] *)
Record NewComment := mkNewComment {
  new_content : string;
  new_parent_comment_id : option Z   (* number | null | undefined *)
}.

(** The object handed to [supabase.from("comments").insert]. *)
Record InsertRow := mkInsertRow {
  row_post_id : Z;
  row_content : string;
  row_parent_comment_id : option Z;
  row_user_id : string;
  row_author : string
}.

(** How an [async] function ends: its promise is fulfilled, or it is
    rejected with the thrown [Error]'s message. *)
Inductive Outcome :=
  | Fulfilled
  | Thrown (message : string).

Section Submission.

(** The comment store's answer to an insert, given the inserts it has
    received before: [error] is [null] or carries a message. *)
Variable respond : list InsertRow → InsertRow → option string.

(** [await supabase.from("comments").insert(row)]; the state is the log of
    inserts issued so far. *)
Definition insert (row : InsertRow) (log : list InsertRow)
    : option string * list InsertRow :=
  (respond log row, log ++ [row]).

(** A [string | undefined] used as a string once the guard has passed. *)
Definition str (s : option string) : string := default EmptyString s.

Definition createComment (newComment : NewComment) (postId : Z)
    (userId author : option string) (log : list InsertRow)
    : Outcome * list InsertRow :=
  if negb (truthy_str userId) || negb (truthy_str author) then
    (Thrown "You must be logged in to comment.", log)
  else
    let '(error, log') :=
      insert
        (mkInsertRow postId (new_content newComment)
           (if truthy (new_parent_comment_id newComment)
            then new_parent_comment_id newComment else None)
           (str userId) (str author))
        log in
    match error with
    | Some message => (Thrown message, log')
    | None => (Fulfilled, log')
    end.

Definition createReply (replyContent : string) (postId parentCommentId : Z)
    (userId author : option string) (log : list InsertRow)
    : Outcome * list InsertRow :=
  if negb (truthy_str userId) || negb (truthy_str author) then
    (Thrown "You must be logged in to reply.", log)
  else
    let '(error, log') :=
      insert
        (mkInsertRow postId replyContent (Some parentCommentId)
           (str userId) (str author))
        log in
    match error with
    | Some message => (Thrown message, log')
    | None => (Fulfilled, log')
    end.

End Submission.

(** ** Vocabulary for the statements *)

(** The first comment of the input carrying a given id. *)
Definition find_by_id (cs : list Comment) (p : Z) : option Comment :=
  snd <$> list_find (λ d, id d = p) cs.

(** Number of parent links between a comment and a comment whose
    [parent_comment_id] is [null] or [0], following at most [fuel] links
    through the input; [None] when the chain leaves the input or does not
    end within [fuel] links. *)
Fixpoint thread_depth (fuel : nat) (cs : list Comment) (c : Comment)
    : option nat :=
  if truthy (parent_comment_id c) then
    match fuel with
    | O => None
    | S fuel' =>
        d ← parent_comment_id c ≫= find_by_id cs;
        S <$> thread_depth fuel' cs d
    end
  else Some O.

(** The parent chain of [c] ends at a top-level comment. *)
Definition attached (cs : list Comment) (c : Comment) : bool :=
  match thread_depth (length cs) cs c with
  | Some _ => true
  | None => false
  end.

(** [c] is a reply to [d]: what the second loop tests before pushing. *)
Definition reply_to (d c : Comment) : bool :=
  truthy (parent_comment_id c) && bool_decide (parent_comment_id c = Some (id d)).

(** Replace a [parent_comment_id] of [0] by [null]. *)
Definition null_zero_parent (c : Comment) : Comment :=
  match parent_comment_id c with
  | Some 0 =>
      mkComment (id c) (post_id c) None (content c) (user_id c)
        (created_at c) (author c)
  | _ => c
  end.

(** Sample comments used in the examples. *)
Definition sample (i : Z) (p : option Z) (text : string) : Comment :=
  mkComment i 1 p text "u1" "2025-01-01T00:00:00Z" "ann".

(** A thread of four comments, an orphan, and two comments citing each
    other as parent. *)
Definition mixed_input : list Comment :=
  [sample 1 None "a"; sample 2 (Some 1) "b"; sample 3 (Some 1) "c";
   sample 4 (Some 2) "d"; sample 5 (Some 999) "orphan";
   sample 6 (Some 7) "ping"; sample 7 (Some 6) "pong"].

(** The thread of the specification's first scenario. *)
Definition thread_input : list Comment :=
  [sample 1 None "a"; sample 2 (Some 1) "b"; sample 3 (Some 1) "c";
   sample 4 (Some 2) "d"].

(** A comment with id 0 and a comment naming 0 as its parent. *)
Definition zero_input : list Comment :=
  [sample 0 None "zero"; sample 7 (Some 0) "reply to zero"].

(** ** Closed form of the result *)

(** The store right after the first pass. *)
Definition fresh_nodes (cs : list Comment) : list Node :=
  (λ c, mkNode c []) <$> cs.

(** What the second pass needs to know about the lookup table: every input
    id has an entry, and every entry points at a node allocated for a comment
    with that id. *)
Record index_ok (cs : list Comment) (m : gmap Z addr) : Prop := {
  index_total : ∀ c, c ∈ cs → is_Some (m !! id c);
  index_sound : ∀ k a, m !! k = Some a → ∃ c, cs !! a = Some c ∧ id c = k
}.

(** The reference the second pass appends to [roots] for [c], if any. *)
Definition root_ref (m : gmap Z addr) (c : Comment) : option addr :=
  if truthy (parent_comment_id c) then None else m !! id c.

(** The reference the second pass pushes onto the children of the node at
    address [j] for [c], if any. *)
Definition child_ref (m : gmap Z addr) (j : addr) (c : Comment) : option addr :=
  if truthy (parent_comment_id c) then
    match parent_comment_id c ≫= (m !!.) with
    | Some parent => if decide (parent = j) then m !! id c else None
    | None => None
    end
  else None.

(** The node at address [j] once the second pass has run over [cs]. *)
Definition grow (m : gmap Z addr) (cs : list Comment) (j : addr) (nd : Node)
    : Node :=
  mkNode (fields nd) (children nd ++ omap (child_ref m j) cs).

(** The forest the builder returns, written in closed form. *)
Definition built (m : gmap Z addr) (cs : list Comment) : Forest :=
  mkForest (imap (λ j c, mkNode c (omap (child_ref m j) cs)) cs)
           (omap (root_ref m) cs).

(** ** Generations of a forest *)

(** Children of the node at an address; none for a dangling reference. *)
Definition kids (store : list Node) (a : addr) : list addr :=
  default [] (children <$> store !! a).

(** The [k]-th generation below [front]. *)
Fixpoint level (store : list Node) (front : list addr) (k : nat) : list addr :=
  match k with
  | O => front
  | S k' => level store (front ≫= kids store) k'
  end.

(** The first [fuel] generations, one after the other. *)
Fixpoint sweep (fuel : nat) (store : list Node) (front : list addr)
    : list addr :=
  match fuel with
  | O => []
  | S fuel' => front ++ sweep fuel' store (front ≫= kids store)
  end.

(** No reference in the store dangles. *)
Definition closed (store : list Node) : Prop :=
  ∀ a nd b, store !! a = Some nd → b ∈ children nd → (b < length store)%nat.

(** [c] is a reply to the comment stored at address [j]. *)
Definition reply_at (cs : list Comment) (j : addr) (c : Comment) : bool :=
  match cs !! j with
  | Some d => reply_to d c
  | None => false
  end.

(** ** Statements of the specification, as written *)

(** [c] is an entry of the returned [roots] array. *)
Definition is_root (F : Forest) (c : Comment) : Prop :=
  ∃ a, a ∈ roots F ∧ deref F a = Some c.

(** [c] sits in the [children] array of some node. *)
Definition is_child (F : Forest) (c : Comment) : Prop :=
  ∃ nd a, nd ∈ nodes F ∧ a ∈ children nd ∧ deref F a = Some c.

(** A comment the second loop appends to [roots]. *)
Definition top_level (c : Comment) : bool :=
  negb (truthy (parent_comment_id c)).

(** P1: the ids reachable in the forest are the input ids, as multisets. *)
Definition covers_input (cs : list Comment) : Prop :=
  ∃ F fuel l,
    buildCommentTree cs = Some F ∧ forest_ids fuel F = Some l
    ∧ l ≡ₚ id <$> cs.

(** P3: a comment is a root exactly when its parent is absent or is not the
    id of another comment of the input. *)
Definition roots_are_unresolved (cs : list Comment) : Prop :=
  ∃ F, buildCommentTree cs = Some F
       ∧ ∀ c, c ∈ cs →
           is_root F c ↔
           (parent_comment_id c = None
            ∨ ∀ d, d ∈ cs → d ≠ c → parent_comment_id c ≠ Some (id d)).

(** The two second passes treat [c] alike: a present parent id is non-zero
    exactly when it is the id of an input comment. *)
Definition well_linked (cs : list Comment) (c : Comment) : bool :=
  match parent_comment_id c with
  | Some p => bool_decide (p ≠ 0 ↔ p ∈ id <$> cs)
  | None => true
  end.

(** A node with a parent id of 0 rewritten to null. *)
Definition null_zero_node (nd : Node) : Node :=
  mkNode (null_zero_parent (fields nd)) (children nd).

(** A forest with every parent id of 0 rewritten to null. *)
Definition relabel (F : Forest) : Forest :=
  mkForest (null_zero_node <$> nodes F) (roots F).

(** ** [CommentItem] and the rendered panel *)

(** [comment.children?.length || 0] *)
Definition replyCount (nd : Node) : nat :=
  if decide (length (children nd) = 0%nat) then 0%nat
  else length (children nd).

(** [comment.children && comment.children.length > 0] *)
Definition hasReplies (nd : Node) : bool :=
  bool_decide (0 < length (children nd))%nat.

(** What [CommentSection] returns: the loading skeleton, the error panel
    showing [error.message], or the discussion, whose list part is either
    one [CommentItem] per entry of [commentTree] or the "No Comments Yet"
    panel. *)
Inductive Panel :=
  | LoadingPanel
  | ErrorPanel (message : string)
  | ThreadList (threads : list addr)
  | NoCommentsYet.

(** The returns of [CommentSection] in source order: [commentTree] is
    computed first, then [if (isLoading)], then [if (error)], then the
    ternary on [commentTree.length > 0].  [error] is the query's [Error]
    object, given by its message, or [null]. *)
Definition comments_panel (isLoading : bool) (error : option string)
    (comments : option (list Comment)) : option Panel :=
  F ← commentTree comments;
  Some
    (if isLoading then LoadingPanel
     else
       match error with
       | Some message => ErrorPanel message
       | None =>
           if bool_decide (0 < length (roots F))%nat
           then ThreadList (roots F)
           else NoCommentsYet
       end).

(** ** The forms *)

(** The signed-in user as [useAuth] supplies it: [user.id] and
    [user.user_metadata?.user_name]. *)
Module User.
Record t := mk { id : string; user_name : option string }.
End User.

(** Local state of a [CommentItem]. *)
Record ItemState := mkItemState {
  showReply : bool;
  replyText : string;
  isCollapsed : bool
}.

Section Forms.

(** [String.prototype.trim]; nothing is assumed about it. *)
Variable trim : string → string.

Variable respond : list InsertRow → InsertRow → option string.

(** [mutate] of [useMutation]: run the mutation function and, when its
    promise is fulfilled, [onSuccess]. *)
Definition mutate {V S : Type}
    (mutationFn : V → list InsertRow → Outcome * list InsertRow)
    (onSuccess : S → S) (variables : V) (st : S) (log : list InsertRow)
    : S * Outcome * list InsertRow :=
  let '(outcome, log') := mutationFn variables log in
  (match outcome with Fulfilled => onSuccess st | Thrown _ => st end,
   outcome, log').

(** [handleSubmit] of [CommentSection]: the text field afterwards, how the
    mutation ended if one was started, and the log of inserts.  Its
    [onSuccess] only invalidates the query and touches no local state. *)
Definition handleSubmit (user : option User.t) (postId : Z)
    (newCommentText : string) (log : list InsertRow)
    : string * option Outcome * list InsertRow :=
  if negb (truthy_str (Some (trim newCommentText))) then
    (newCommentText, None, log)
  else
    let '(_, outcome, log') :=
      mutate
        (λ newComment,
           createComment respond newComment postId
             (User.id <$> user) (user ≫= User.user_name))
        (λ u : unit, u)
        (mkNewComment newCommentText None) tt log in
    (EmptyString, Some outcome, log').

(** [handleReplySubmit] of [CommentItem]; [onSuccess] clears the reply text
    and closes the reply form. *)
Definition handleReplySubmit (user : option User.t) (postId : Z)
    (comment : Node) (st : ItemState) (log : list InsertRow)
    : ItemState * option Outcome * list InsertRow :=
  if negb (truthy_str (Some (trim (replyText st)))) then (st, None, log)
  else
    let '(st', outcome, log') :=
      mutate
        (λ replyContent,
           createReply respond replyContent postId (id (fields comment))
             (User.id <$> user) (user ≫= User.user_name))
        (λ s, mkItemState false EmptyString (isCollapsed s))
        (replyText st) st log in
    (st', Some outcome, log').

End Forms.

(** ** Vocabulary for the further statements *)

(** Both the user id and the display name are non-empty strings. *)
Definition logged_in (user : option User.t) : bool :=
  truthy_str (User.id <$> user) && truthy_str (user ≫= User.user_name).

(** Every entry of the lookup table points at the last comment carrying
    its id. *)
Definition index_last (cs : list Comment) (m : gmap Z addr) : Prop :=
  ∀ k a i c, m !! k = Some a → cs !! i = Some c → id c = k → (i ≤ a)%nat.

(** The second loop pushes [c] onto some node's children. *)
Definition linked (m : gmap Z addr) (c : Comment) : bool :=
  truthy (parent_comment_id c)
  && bool_decide (is_Some (parent_comment_id c ≫= (m !!.))).



(** The second loop pushes [c] somewhere: its parent id is null or 0, or is
    the id of an input comment. *)
Definition placed (cs : list Comment) (c : Comment) : bool :=
  match parent_comment_id c with
  | Some p => (p =? 0) || bool_decide (p ∈ id <$> cs)
  | None => true
  end.

(** A later comment of the input carries the id of the comment at position
    [j], so that the first loop's [map.set] replaced the node made at [j]. *)
Definition overwritten (cs : list Comment) (j : addr) : bool :=
  match cs !! j with
  | Some d => bool_decide (Exists (λ c, id c = id d) (drop (S j) cs))
  | None => false
  end.

(** [c] sits in the [children] array of a node carrying the fields [d]. *)
Definition child_of (F : Forest) (d c : Comment) : Prop :=
  ∃ nd a, nd ∈ nodes F ∧ fields nd = d ∧ a ∈ children nd
          ∧ deref F a = Some c.

(** The thread of the first scenario in another order. *)
Definition shuffled_input : list Comment :=
  [sample 4 (Some 2) "d"; sample 2 (Some 1) "b"; sample 1 None "a";
   sample 3 (Some 1) "c"].

(** ** Examples: the scenarios of the specification *)

Example scenario_thread :
  buildCommentTree
    [sample 1 None "a"; sample 2 (Some 1) "b"; sample 3 (Some 1) "c";
     sample 4 (Some 2) "d"]
  = Some (mkForest
      [mkNode (sample 1 None "a") [1; 2]%nat;
       mkNode (sample 2 (Some 1) "b") [3%nat];
       mkNode (sample 3 (Some 1) "c") [];
       mkNode (sample 4 (Some 2) "d") []]
      [0%nat]).
Proof. reflexivity. Qed.

Example scenario_two_threads :
  roots <$> buildCommentTree
    [sample 1 None "a"; sample 2 (Some 1) "b"; sample 3 None "c";
     sample 4 (Some 3) "d"]
  = Some [0; 2]%nat.
Proof. reflexivity. Qed.

Example scenario_empty : buildCommentTree [] = Some (mkForest [] []).
Proof. reflexivity. Qed.

Example scenario_self_parent :
  buildCommentTree [sample 1 (Some 1) "a"]
  = Some (mkForest [mkNode (sample 1 (Some 1) "a") [0%nat]] []).
Proof. reflexivity. Qed.

Example scenario_orphan :
  buildCommentTree [sample 5 (Some 999) "orphan"]
  = Some (mkForest [mkNode (sample 5 (Some 999) "orphan") []] []).
Proof. reflexivity. Qed.

Example scenario_thread_trees :
  buildCommentTree thread_input ≫= forest_trees 3
  = Some
      [TreeNode (sample 1 None "a")
         [TreeNode (sample 2 (Some 1) "b")
            [TreeNode (sample 4 (Some 2) "d") []];
          TreeNode (sample 3 (Some 1) "c") []]].
Proof. reflexivity. Qed.

Example scenario_ids :
  forest_ids 4
    <$> buildCommentTree
          [sample 1 None "a"; sample 2 (Some 1) "b"; sample 3 (Some 1) "c";
           sample 4 (Some 2) "d"]
  = Some (Some [1; 2; 3; 4]).
Proof. reflexivity. Qed.

(** ** Loops *)

Lemma forEach_app {S : Type} (f : Comment → S → option S) l1 l2 (s : S) :
  forEach f (l1 ++ l2) s = forEach f l1 s ≫= forEach f l2.
Proof.
  revert s. induction l1 as [|c l1 IH]; intros s; simpl; [done|].
  destruct (f c s) as [s'|]; simpl; [apply IH | done].
Qed.


(** ** First pass: the lookup table *)

Lemma first_pass cs :
  ∃ m, forEach set_node cs (∅, []) = Some (m, fresh_nodes cs) ∧ index_ok cs m.
Proof.
  induction cs as [|c cs [m [Hrun [Htot Hsnd]]]] using rev_ind.
  - exists ∅. split; [done|]. split.
    + intros c Hc. by apply elem_of_nil in Hc.
    + intros k a Hk. by rewrite lookup_empty in Hk.
  - exists (<[id c := length cs]> m). split.
    + rewrite forEach_app, Hrun. simpl.
      unfold fresh_nodes. by rewrite length_fmap, fmap_app.
    + split.
      * intros c' [Hc'| ->%list_elem_of_singleton]%elem_of_app.
        -- destruct (decide (id c = id c')) as [->|Hne].
           ++ rewrite lookup_insert_eq. eauto.
           ++ rewrite lookup_insert_ne by done. by apply Htot.
        -- rewrite lookup_insert_eq. eauto.
      * intros k a. destruct (decide (id c = k)) as [<-|Hne].
        -- rewrite lookup_insert_eq. intros [= <-]. exists c.
           by rewrite list_lookup_middle.
        -- rewrite lookup_insert_ne by done. intros Hk.
           destruct (Hsnd k a Hk) as (c' & Hc' & Hid). exists c'.
           split; [|done]. by apply lookup_app_l_Some.
Qed.

(** With unique ids the table sends each id to the position of its comment. *)
Lemma index_unique cs m i c :
  index_ok cs m → NoDup (id <$> cs) → cs !! i = Some c → m !! id c = Some i.
Proof.
  intros [Htot Hsnd] Hnd Hi.
  destruct (Htot c) as [a Ha]; [by eapply list_elem_of_lookup_2|].
  destruct (Hsnd _ _ Ha) as (c' & Hc' & Hid).
  rewrite Ha. f_equal.
  eapply (NoDup_lookup _ _ _ (id c) Hnd).
  - by rewrite list_lookup_fmap, Hc', <- Hid.
  - by rewrite list_lookup_fmap, Hi.
Qed.

Lemma index_resolves cs m p :
  index_ok cs m → is_Some (m !! p) ↔ p ∈ id <$> cs.
Proof.
  intros [Htot Hsnd]. split.
  - intros [a Ha]. destruct (Hsnd _ _ Ha) as (c & Hc & <-).
    apply list_elem_of_fmap. exists c. split; [done|].
    by eapply list_elem_of_lookup_2.
  - intros (c & -> & Hc)%list_elem_of_fmap. by apply Htot.
Qed.

Lemma unique_ids_lookup cs i j c d :
  NoDup (id <$> cs) → cs !! i = Some c → cs !! j = Some d → id c = id d → i = j.
Proof.
  intros Hnd Hi Hj Hid.
  eapply (NoDup_lookup _ _ _ (id c) Hnd).
  - by rewrite list_lookup_fmap, Hi.
  - by rewrite list_lookup_fmap, Hj, Hid.
Qed.

(** ** Second pass: what ends up where *)

Lemma grow_nil m j nd : grow m [] j nd = nd.
Proof. destruct nd. unfold grow. simpl. by rewrite app_nil_r. Qed.

Lemma grow_cons m c cs j nd :
  grow m cs j (grow m [c] j nd) = grow m (c :: cs) j nd.
Proof.
  unfold grow. simpl. destruct (child_ref m j c); simpl.
  - by rewrite <- app_assoc.
  - by rewrite app_nil_r.
Qed.

Lemma link_step m c store rs :
  is_Some (m !! id c) →
  (∀ k a, m !! k = Some a → (a < length store)%nat) →
  ∃ store1,
    link m c (store, rs) = Some (store1, rs ++ omap (root_ref m) [c])
    ∧ length store1 = length store
    ∧ ∀ j, store1 !! j = grow m [c] j <$> store !! j.
Proof.
  intros [self Hself] Hrange.
  unfold link, root_ref, grow, child_ref. simpl.
  destruct (truthy (parent_comment_id c)) eqn:Htr.
  - destruct (parent_comment_id c ≫= (m !!.)) as [parent|] eqn:Hpar; simpl.
    + assert (parent < length store)%nat as Hlt.
      { destruct (parent_comment_id c) as [p|]; simplify_eq/=. eauto. }
      destruct (lookup_lt_is_Some_2 store parent Hlt) as [nd Hnd].
      rewrite Hself. unfold push_child. simpl. rewrite Hnd. simpl.
      eexists. split; [by rewrite app_nil_r|].
      split; [by rewrite length_insert|].
      intros j. destruct (decide (parent = j)) as [<-|Hne].
      * rewrite list_lookup_insert_eq by done. by rewrite Hnd.
      * rewrite list_lookup_insert_ne by done.
        destruct (store !! j) as [[]|]; simpl; [|done].
        by rewrite app_nil_r.
    + exists store. split; [by rewrite app_nil_r|]. split; [done|].
      intros j. destruct (store !! j) as [[]|]; simpl; [|done].
      by rewrite app_nil_r.
  - rewrite Hself. simpl. exists store. split; [done|]. split; [done|].
    intros j. destruct (store !! j) as [[]|]; simpl; [|done].
    by rewrite app_nil_r.
Qed.

Lemma second_pass m cs : ∀ store rs,
  (∀ c, c ∈ cs → is_Some (m !! id c)) →
  (∀ k a, m !! k = Some a → (a < length store)%nat) →
  ∃ store',
    forEach (link m) cs (store, rs) = Some (store', rs ++ omap (root_ref m) cs)
    ∧ length store' = length store
    ∧ ∀ j, store' !! j = grow m cs j <$> store !! j.
Proof.
  induction cs as [|c cs IH]; intros store rs Htot Hrange.
  - exists store. simpl. rewrite app_nil_r. split; [done|]. split; [done|].
    intros j. destruct (store !! j) as [nd|]; simpl; [|done].
    by rewrite grow_nil.
  - destruct (link_step m c store rs) as (store1 & Hstep & Hlen1 & Hlook1);
      [apply Htot; by left | done |].
    destruct (IH store1 (rs ++ omap (root_ref m) [c]))
      as (store' & Hrun & Hlen & Hlook).
    { intros c' Hc'. apply Htot. by right. }
    { intros k a Hk. rewrite Hlen1. eauto. }
    exists store'. split; [|split].
    + cbn [forEach]. rewrite Hstep. cbn [mbind option_bind]. rewrite Hrun.
      f_equal. f_equal. rewrite <- app_assoc. f_equal.
      simpl. by destruct (root_ref m c).
    + congruence.
    + intros j. rewrite Hlook, Hlook1.
      destruct (store !! j) as [nd|]; simpl; [|done].
      by rewrite grow_cons.
Qed.

Lemma build_shape cs :
  ∃ m, index_ok cs m ∧ buildCommentTree cs = Some (built m cs).
Proof.
  destruct (first_pass cs) as (m & Hrun1 & Hm).
  destruct (second_pass m cs (fresh_nodes cs) []) as (store' & Hrun2 & _ & Hlook).
  { apply Hm. }
  { intros k a Hk. destruct (index_sound _ _ Hm k a Hk) as (c & Hc & _).
    unfold fresh_nodes. rewrite length_fmap. by eapply lookup_lt_Some. }
  exists m. split; [done|].
  unfold buildCommentTree. rewrite Hrun1. simpl. rewrite Hrun2. simpl.
  unfold built. do 2 f_equal.
  apply list_eq. intros j. rewrite Hlook, list_lookup_imap.
  unfold fresh_nodes. rewrite list_lookup_fmap.
  by destruct (cs !! j).
Qed.

Lemma built_lookup m cs j :
  nodes (built m cs) !! j = (λ c, mkNode c (omap (child_ref m j) cs)) <$> cs !! j.
Proof. unfold built. simpl. by rewrite list_lookup_imap. Qed.

Lemma built_deref m cs j : deref (built m cs) j = cs !! j.
Proof.
  unfold deref. rewrite built_lookup. by destruct (cs !! j).
Qed.

(** ** Generic list facts *)

Lemma NoDup_omap_inj {A B : Type} (f : A → option B) (l : list A) :
  (∀ x y z, x ∈ l → y ∈ l → f x = Some z → f y = Some z → x = y) →
  NoDup l → NoDup (omap f l).
Proof.
  induction l as [|x l IH]; intros Hinj Hnd; csimpl; [constructor|].
  apply NoDup_cons in Hnd as [Hx Hnd].
  assert (NoDup (omap f l)) as Hrec.
  { apply IH; [|done]. intros y1 y2 z H1 H2. apply Hinj; by right. }
  destruct (f x) as [z|] eqn:Hfx; [|done].
  apply NoDup_cons. split; [|done].
  intros (y & Hy & Hfy)%list_elem_of_omap.
  assert (x = y) as -> by (eapply Hinj; [by left | by right | done | done]).
  done.
Qed.

Lemma mapM_omap_filter {A B : Type} (g : B → option A) (r : A → option B)
    (P : A → bool) (l : list A) :
  (∀ x, x ∈ l →
     if P x then ∃ b, r x = Some b ∧ g b = Some x else r x = None) →
  mapM g (omap r l) = Some (filter P l).
Proof.
  intros Hl. apply mapM_Some.
  induction l as [|x l IH]; [constructor|].
  assert (Forall2 (λ b y, g b = Some y) (omap r l) (filter P l)) as Hrec.
  { apply IH. intros y Hy. apply Hl. by right. }
  specialize (Hl x (list_elem_of_here _ _)).
  rewrite filter_cons. csimpl. destruct (P x) eqn:HP.
  - destruct Hl as (b & -> & Hb). rewrite decide_True by done.
    by constructor.
  - rewrite Hl. rewrite decide_False by (simpl; tauto). done.
Qed.

Lemma NoDup_bounded_length (l : list nat) (n : nat) :
  NoDup l → (∀ a, a ∈ l → (a < n)%nat) → (length l ≤ n)%nat.
Proof.
  intros Hnd Hlt.
  trans (length (seq 0%nat n)); [|by rewrite length_seq].
  apply submseteq_length.
  apply NoDup_submseteq; [done|].
  intros a Ha. apply elem_of_seq. specialize (Hlt a Ha). lia.
Qed.

(** ** Walking a store level by level *)

Lemma level_succ store front k :
  level store front (S k) = level store front k ≫= kids store.
Proof.
  revert front. induction k as [|k IH]; intros front; [done|].
  change (level store front (S (S k)))
    with (level store (front ≫= kids store) (S k)).
  by rewrite IH.
Qed.

Lemma level_add store k2 : ∀ k front,
  level store (level store front k) k2 = level store front (k + k2).
Proof. induction k as [|k IH]; intros front; [done|]. simpl. apply IH. Qed.

Lemma level_nil store k : level store [] k = [].
Proof. induction k as [|k IH]; [done|]. simpl. apply IH. Qed.

Lemma level_nil_le store front k k' :
  (k ≤ k')%nat → level store front k = [] → level store front k' = [].
Proof.
  induction 1 as [|k' _ IH]; intros Hk; [done|].
  rewrite level_succ, IH by done. done.
Qed.

Lemma sweep_nil fuel store : sweep fuel store [] = [].
Proof. induction fuel as [|fuel IH]; [done|]. simpl. apply IH. Qed.

Lemma elem_of_sweep fuel store front a :
  a ∈ sweep fuel store front ↔ ∃ k, (k < fuel)%nat ∧ a ∈ level store front k.
Proof.
  revert front. induction fuel as [|fuel IH]; intros front; simpl.
  - split; [by intros ?%elem_of_nil | intros (k & ? & _); lia].
  - rewrite elem_of_app, IH. split.
    + intros [Ha|(k & Hk & Ha)].
      * exists 0%nat. split; [lia | done].
      * exists (S k). split; [lia | done].
    + intros ([|k] & Hk & Ha); [by left|].
      right. exists k. split; [lia | done].
Qed.

Lemma sweep_length store front k :
  level store front k ≠ [] → (S k ≤ length (sweep (S k) store front))%nat.
Proof.
  revert front. induction k as [|k IH]; intros front Hne.
  - simpl in *. destruct front; [done|]. simpl. lia.
  - destruct front as [|a front]; [by rewrite level_nil in Hne|].
    change (sweep (S (S k)) store (a :: front))
      with ((a :: front) ++ sweep (S k) store ((a :: front) ≫= kids store)).
    rewrite length_app. specialize (IH _ Hne). simpl length at 1. lia.
Qed.

Lemma mapM_lookup_kids store front :
  Forall (λ a, (a < length store)%nat) front →
  ∃ nds, mapM (store !!.) front = Some nds
         ∧ nds ≫= children = front ≫= kids store.
Proof.
  induction 1 as [|a front Ha _ (nds & Hnds & Hkids)].
  - by exists [].
  - destruct (lookup_lt_is_Some_2 store a Ha) as [nd Hnd].
    exists (nd :: nds). split.
    + apply mapM_Some. constructor; [done | by apply mapM_Some].
    + rewrite !bind_cons, Hkids. unfold kids. by rewrite Hnd.
Qed.

Lemma closed_kids store front :
  closed store →
  Forall (λ a, (a < length store)%nat) (front ≫= kids store).
Proof.
  intros Hcl. apply Forall_forall. intros b (a & Hb & _)%list_elem_of_bind.
  unfold kids in Hb. destruct (store !! a) as [nd|] eqn:Hnd; simpl in Hb.
  - by eapply Hcl.
  - by apply elem_of_nil in Hb.
Qed.

(** With enough fuel to reach an empty generation, the walk succeeds and
    lists exactly the generations above it. *)
Lemma descend_sweep fuel store : ∀ front,
  closed store →
  Forall (λ a, (a < length store)%nat) front →
  level store front fuel = [] →
  descend fuel store front = Some (sweep fuel store front).
Proof.
  induction fuel as [|fuel IH]; intros front Hcl Hfront Hlev.
  - simpl in Hlev. by subst.
  - destruct front as [|a front]; [by rewrite sweep_nil|].
    destruct (mapM_lookup_kids store (a :: front) Hfront) as (nds & Hnds & Hk).
    cbn [descend]. rewrite Hnds. cbn [mbind option_bind]. rewrite Hk.
    rewrite IH; [done | done | by apply closed_kids | done].
Qed.

(** ** Depth of a comment in its thread *)

Lemma thread_depth_falsy fuel cs c :
  truthy (parent_comment_id c) = false → thread_depth fuel cs c = Some O.
Proof. intros Hc. destruct fuel; simpl; by rewrite Hc. Qed.

Lemma thread_depth_step fuel cs c k :
  thread_depth (S fuel) cs c = Some (S k) ↔
  truthy (parent_comment_id c) = true
  ∧ ∃ d, parent_comment_id c ≫= find_by_id cs = Some d
         ∧ thread_depth fuel cs d = Some k.
Proof.
  simpl. destruct (truthy (parent_comment_id c));
    [|split; [done | by intros [? _]]].
  destruct (parent_comment_id c ≫= find_by_id cs) as [d|]; simpl;
    [|split; [done | by intros (_ & ? & ? & _)]].
  split.
  - destruct (thread_depth fuel cs d) as [k'|] eqn:Hd; simpl; [|done].
    intros [= ->]. split; [done|]. by exists d.
  - intros (_ & d' & [= <-] & ->). done.
Qed.

Lemma thread_depth_zero fuel cs c :
  thread_depth fuel cs c = Some O ↔ truthy (parent_comment_id c) = false.
Proof.
  split; [|apply thread_depth_falsy].
  destruct fuel; simpl; destruct (truthy (parent_comment_id c)); try done.
  destruct (parent_comment_id c ≫= find_by_id cs) as [d|]; simpl; [|done].
  by destruct (thread_depth fuel cs d).
Qed.

Lemma thread_depth_bound fuel cs : ∀ c k,
  thread_depth fuel cs c = Some k → (k ≤ fuel)%nat.
Proof.
  induction fuel as [|fuel IH]; intros c [|k] Hd; try lia.
  - simpl in Hd. by destruct (truthy (parent_comment_id c)).
  - apply thread_depth_step in Hd as (_ & d & _ & Hd).
    apply IH in Hd. lia.
Qed.

Lemma thread_depth_mono fuel cs : ∀ fuel' c k,
  thread_depth fuel cs c = Some k → (fuel ≤ fuel')%nat →
  thread_depth fuel' cs c = Some k.
Proof.
  induction fuel as [|fuel IH]; intros fuel' c [|k] Hd Hle.
  - apply thread_depth_zero in Hd. by apply thread_depth_falsy.
  - apply thread_depth_bound in Hd. lia.
  - apply thread_depth_zero in Hd. by apply thread_depth_falsy.
  - destruct fuel' as [|fuel']; [lia|].
    apply thread_depth_step in Hd as (Htr & d & Hpar & Hd).
    apply thread_depth_step. split; [done|]. exists d. split; [done|].
    apply IH; [done | lia].
Qed.

Lemma thread_depth_exact fuel cs : ∀ c k,
  thread_depth fuel cs c = Some k → thread_depth k cs c = Some k.
Proof.
  induction fuel as [|fuel IH]; intros c [|k] Hd.
  - done.
  - apply thread_depth_bound in Hd. lia.
  - apply thread_depth_zero in Hd. by apply thread_depth_falsy.
  - apply thread_depth_step in Hd as (Htr & d & Hpar & Hd).
    apply thread_depth_step. split; [done|]. exists d. split; [done|].
    by apply IH.
Qed.

(** ** Inputs with unique ids *)

Section UniqueIds.

Variable cs : list Comment.
Variable m : gmap Z addr.
Hypothesis Hm : index_ok cs m.
Hypothesis Huniq : NoDup (id <$> cs).

Lemma find_by_id_unique p d :
  find_by_id cs p = Some d ↔ d ∈ cs ∧ id d = p.
Proof.
  unfold find_by_id. split.
  - destruct (list_find _ cs) as [[i d']|] eqn:Hfind; simpl; [|done].
    intros [= ->]. apply list_find_Some in Hfind as (Hi & Hid & _).
    split; [by eapply list_elem_of_lookup_2 | done].
  - intros [(i & Hi)%list_elem_of_lookup_1 Hid].
    assert (list_find (λ d, id d = p) cs = Some (i, d)) as ->; [|done].
    apply list_find_Some. split; [done|]. split; [done|].
    intros j y Hj Hlt Hy.
    assert (j = i) by (eapply unique_ids_lookup; [done..|congruence]). lia.
Qed.

Lemma root_ref_at i c :
  cs !! i = Some c →
  root_ref m c = if truthy (parent_comment_id c) then None else Some i.
Proof.
  intros Hi. unfold root_ref.
  destruct (truthy (parent_comment_id c)); [done|].
  by apply (index_unique cs).
Qed.

Lemma child_ref_at i j c :
  cs !! i = Some c →
  child_ref m j c = if reply_at cs j c then Some i else None.
Proof.
  intros Hi. unfold child_ref, reply_at, reply_to.
  destruct (truthy (parent_comment_id c)) eqn:Htr; simpl;
    [|by destruct (cs !! j)].
  destruct (parent_comment_id c) as [p|] eqn:Hp; [|done]. simpl.
  destruct (m !! p) as [parent|] eqn:Hpar.
  - destruct (index_sound _ _ Hm _ _ Hpar) as (d & Hd & Hid).
    destruct (decide (parent = j)) as [<-|Hne].
    + rewrite Hd, bool_decide_true by congruence.
      by apply (index_unique cs).
    + destruct (cs !! j) as [d'|] eqn:Hd'; [|done].
      case_bool_decide as Heq; [|done].
      assert (m !! p = Some j) by (injection Heq as ->; by apply (index_unique cs)).
      congruence.
  - destruct (cs !! j) as [d'|] eqn:Hd'; [|done].
    case_bool_decide as Heq; [|done].
    assert (m !! p = Some j) by (injection Heq as ->; by apply (index_unique cs)).
    congruence.
Qed.

Lemma root_ref_inv c a :
  c ∈ cs → root_ref m c = Some a →
  cs !! a = Some c ∧ truthy (parent_comment_id c) = false.
Proof.
  intros (i & Hi)%list_elem_of_lookup_1 Hr.
  rewrite (root_ref_at i c Hi) in Hr.
  destruct (truthy (parent_comment_id c)); [done|].
  by injection Hr as <-.
Qed.

Lemma child_ref_inv j c a :
  c ∈ cs → child_ref m j c = Some a →
  cs !! a = Some c ∧ reply_at cs j c = true.
Proof.
  intros (i & Hi)%list_elem_of_lookup_1 Hr.
  rewrite (child_ref_at i j c Hi) in Hr.
  destruct (reply_at cs j c); [|done].
  by injection Hr as <-.
Qed.

Lemma roots_mem a :
  a ∈ roots (built m cs) ↔
  ∃ c, cs !! a = Some c ∧ truthy (parent_comment_id c) = false.
Proof.
  unfold built. simpl. rewrite list_elem_of_omap. split.
  - intros (c & Hc & Hr). exists c. by apply root_ref_inv.
  - intros (c & Ha & Hf). exists c.
    split; [by eapply list_elem_of_lookup_2|].
    by rewrite (root_ref_at a c Ha), Hf.
Qed.

Lemma kids_built j :
  kids (nodes (built m cs)) j = omap (child_ref m j) cs.
Proof.
  unfold kids. rewrite built_lookup.
  destruct (cs !! j) as [d|] eqn:Hj; [done|]. simpl.
  symmetry. apply elem_of_nil_inv.
  intros a (c & Hc & Hr)%list_elem_of_omap.
  apply child_ref_inv in Hr as [_ Hr]; [|done].
  unfold reply_at in Hr. by rewrite Hj in Hr.
Qed.

Lemma kids_mem j a :
  a ∈ kids (nodes (built m cs)) j ↔
  ∃ c, cs !! a = Some c ∧ reply_at cs j c = true.
Proof.
  rewrite kids_built, list_elem_of_omap. split.
  - intros (c & Hc & Hr). exists c. by apply child_ref_inv.
  - intros (c & Ha & Hr). exists c.
    split; [by eapply list_elem_of_lookup_2|].
    by rewrite (child_ref_at a j c Ha), Hr.
Qed.

Lemma NoDup_input : NoDup cs.
Proof. by eapply NoDup_fmap_1. Qed.

Lemma NoDup_roots : NoDup (roots (built m cs)).
Proof.
  unfold built. simpl. apply NoDup_omap_inj; [|apply NoDup_input].
  intros c1 c2 a H1 H2 Hr1 Hr2.
  apply root_ref_inv in Hr1 as [Hr1 _]; [|done].
  apply root_ref_inv in Hr2 as [Hr2 _]; [|done]. congruence.
Qed.

Lemma NoDup_kids j : NoDup (kids (nodes (built m cs)) j).
Proof.
  rewrite kids_built. apply NoDup_omap_inj; [|apply NoDup_input].
  intros c1 c2 a H1 H2 Hr1 Hr2.
  apply child_ref_inv in Hr1 as [Hr1 _]; [|done].
  apply child_ref_inv in Hr2 as [Hr2 _]; [|done]. congruence.
Qed.

Lemma built_length : length (nodes (built m cs)) = length cs.
Proof. unfold built. simpl. apply length_imap. Qed.

Lemma closed_built : closed (nodes (built m cs)).
Proof.
  intros a nd b Ha Hb. rewrite built_length.
  assert (b ∈ kids (nodes (built m cs)) a) as Hk.
  { unfold kids. by rewrite Ha. }
  apply kids_mem in Hk as (c & Hc & _). by eapply lookup_lt_Some.
Qed.

Lemma roots_in_store :
  Forall (λ a, (a < length (nodes (built m cs)))%nat) (roots (built m cs)).
Proof.
  apply Forall_forall. intros a (c & Hc & _)%roots_mem.
  rewrite built_length. by eapply lookup_lt_Some.
Qed.

(** A reply is a reply to one comment only. *)
Lemma reply_at_inj j1 j2 c :
  reply_at cs j1 c = true → reply_at cs j2 c = true → j1 = j2.
Proof.
  unfold reply_at, reply_to. intros H1 H2.
  destruct (cs !! j1) as [d1|] eqn:Hd1; [|done].
  destruct (cs !! j2) as [d2|] eqn:Hd2; [|done].
  apply andb_prop in H1 as [_ H1%bool_decide_eq_true].
  apply andb_prop in H2 as [_ H2%bool_decide_eq_true].
  eapply unique_ids_lookup; [done..|congruence].
Qed.

Lemma reply_at_depth j c d k :
  cs !! j = Some d → reply_at cs j c = true →
  thread_depth (S k) cs c = Some (S k) ↔ thread_depth k cs d = Some k.
Proof.
  intros Hj Hr. unfold reply_at in Hr. rewrite Hj in Hr.
  apply andb_prop in Hr as [Htr Hp%bool_decide_eq_true].
  assert (parent_comment_id c ≫= find_by_id cs = Some d) as Hfind.
  { rewrite Hp. simpl. apply find_by_id_unique.
    split; [by eapply list_elem_of_lookup_2 | done]. }
  rewrite thread_depth_step, Hfind. split.
  - by intros (_ & d' & [= <-] & Hd).
  - intros Hd. split; [done|]. by exists d.
Qed.

(** *** Generations of the built forest *)

Lemma level_mem k : ∀ a,
  a ∈ level (nodes (built m cs)) (roots (built m cs)) k ↔
  ∃ c, cs !! a = Some c ∧ thread_depth k cs c = Some k.
Proof.
  induction k as [|k IH]; intros a.
  - simpl level. rewrite roots_mem.
    split; intros (c & Hc & Hd); exists c; split; try done;
      by apply (thread_depth_zero 0 cs c).
  - rewrite level_succ, list_elem_of_bind. split.
    + intros (j & (c & Hc & Hr)%kids_mem & (d & Hd & Hdep)%IH).
      exists c. split; [done|]. by apply (reply_at_depth j c d k).
    + intros (c & Hc & Hdep).
      pose proof Hdep as (Htr & d & Hfind & Hd)%thread_depth_step.
      destruct (parent_comment_id c) as [p|] eqn:Hp; [|done].
      simpl in Hfind. apply find_by_id_unique in Hfind as [Hdin Hid].
      apply list_elem_of_lookup_1 in Hdin as [j Hj].
      exists j. split.
      * apply kids_mem. exists c. split; [done|].
        unfold reply_at, reply_to. rewrite Hj, Hp, Htr. simpl.
        apply bool_decide_eq_true. congruence.
      * apply IH. by exists d.
Qed.

Lemma level_in_input k a :
  a ∈ level (nodes (built m cs)) (roots (built m cs)) k → (a < length cs)%nat.
Proof. intros (c & Hc & _)%level_mem. by eapply lookup_lt_Some. Qed.

Lemma NoDup_level k :
  NoDup (level (nodes (built m cs)) (roots (built m cs)) k).
Proof.
  induction k as [|k IH]; [apply NoDup_roots|].
  rewrite level_succ. apply NoDup_bind; [|intros; apply NoDup_kids|done].
  intros j1 j2 a _ _ (c1 & Hc1 & Hr1)%kids_mem (c2 & Hc2 & Hr2)%kids_mem.
  assert (c1 = c2) as -> by congruence.
  by eapply reply_at_inj.
Qed.

Lemma level_disjoint k k' a :
  a ∈ level (nodes (built m cs)) (roots (built m cs)) k →
  a ∈ level (nodes (built m cs)) (roots (built m cs)) k' →
  k = k'.
Proof.
  intros (c & Hc & Hd)%level_mem (c' & Hc' & Hd')%level_mem.
  assert (c' = c) as -> by congruence.
  destruct (Nat.le_ge_cases k k') as [Hle|Hle].
  - apply (thread_depth_mono _ _ k') in Hd; [congruence | done].
  - apply (thread_depth_mono _ _ k) in Hd'; [congruence | done].
Qed.

Lemma NoDup_sweep fuel : ∀ k,
  NoDup (sweep fuel (nodes (built m cs))
           (level (nodes (built m cs)) (roots (built m cs)) k)).
Proof.
  induction fuel as [|fuel IH]; intros k; [constructor|].
  simpl sweep. rewrite <- level_succ. apply NoDup_app.
  split; [apply NoDup_level|]. split; [|apply IH].
  intros a Ha (k2 & _ & Hk2)%elem_of_sweep.
  rewrite level_add in Hk2.
  pose proof (level_disjoint _ _ _ Ha Hk2). lia.
Qed.

Lemma level_length_nil :
  level (nodes (built m cs)) (roots (built m cs)) (length cs) = [].
Proof.
  destruct (decide (level (nodes (built m cs)) (roots (built m cs))
                      (length cs) = [])) as [|Hne]; [done|].
  apply sweep_length in Hne.
  assert (length (sweep (S (length cs)) (nodes (built m cs))
                    (roots (built m cs))) ≤ length cs)%nat; [|lia].
  apply NoDup_bounded_length.
  - apply (NoDup_sweep (S (length cs)) 0).
  - intros a (k & _ & Ha)%elem_of_sweep. by eapply level_in_input.
Qed.

Lemma descend_built :
  descend (length cs) (nodes (built m cs)) (roots (built m cs))
  = Some (sweep (length cs) (nodes (built m cs)) (roots (built m cs))).
Proof.
  apply descend_sweep;
    [apply closed_built | apply roots_in_store | apply level_length_nil].
Qed.

Lemma sweep_mem a :
  a ∈ sweep (length cs) (nodes (built m cs)) (roots (built m cs)) ↔
  ∃ c, cs !! a = Some c ∧ attached cs c = true.
Proof.
  rewrite elem_of_sweep. unfold attached. split.
  - intros (k & Hk & (c & Hc & Hd)%level_mem). exists c. split; [done|].
    by rewrite (thread_depth_mono _ _ (length cs) _ _ Hd) by lia.
  - intros (c & Hc & Hatt).
    destruct (thread_depth (length cs) cs c) as [k|] eqn:Hd; [|done].
    assert (a ∈ level (nodes (built m cs)) (roots (built m cs)) k) as Ha.
    { apply level_mem. exists c. split; [done|].
      by eapply thread_depth_exact. }
    exists k. split; [|done].
    destruct (decide (k < length cs)%nat) as [|Hge]; [done|].
    rewrite (level_nil_le _ _ (length cs) k) in Ha;
      [by apply elem_of_nil in Ha | lia | apply level_length_nil].
Qed.

(** The fuel built into [attached] is enough: a chain that ends at all ends
    within [length cs] links. *)
Lemma attached_fuel fuel c :
  c ∈ cs → is_Some (thread_depth fuel cs c) → attached cs c = true.
Proof.
  intros (a & Ha)%list_elem_of_lookup_1 [k Hk%thread_depth_exact].
  assert (a ∈ level (nodes (built m cs)) (roots (built m cs)) k) as Hlev.
  { apply level_mem. by exists c. }
  unfold attached.
  destruct (decide (k < length cs)%nat) as [Hlt|Hge].
  - by rewrite (thread_depth_mono _ _ (length cs) _ _ Hk) by lia.
  - rewrite (level_nil_le _ _ (length cs) k) in Hlev;
      [by apply elem_of_nil in Hlev | lia | apply level_length_nil].
Qed.

End UniqueIds.

(** ** The walk does not depend on the fuel *)

Lemma descend_mono fuel store : ∀ fuel' front l,
  descend fuel store front = Some l → (fuel ≤ fuel')%nat →
  descend fuel' store front = Some l.
Proof.
  induction fuel as [|fuel IH]; intros fuel' front l Hrun Hle.
  - destruct front; [by destruct fuel' | done].
  - destruct fuel' as [|fuel']; [lia|].
    destruct front as [|a front]; [done|].
    cbn [descend] in *.
    destruct (mapM (store !!.) (a :: front)) as [nds|]; [|done].
    cbn [mbind option_bind] in *.
    destruct (descend fuel store (nds ≫= children)) as [below|] eqn:Hbelow;
      [|done].
    rewrite (IH fuel' _ below Hbelow) by lia. done.
Qed.

Lemma forest_ids_agree f1 f2 F l1 l2 :
  forest_ids f1 F = Some l1 → forest_ids f2 F = Some l2 → l1 = l2.
Proof.
  unfold forest_ids. intros H1 H2.
  destruct (descend f1 (nodes F) (roots F)) as [r1|] eqn:Hr1; [|done].
  destruct (descend f2 (nodes F) (roots F)) as [r2|] eqn:Hr2; [|done].
  simpl in *.
  destruct (Nat.le_ge_cases f1 f2) as [Hle|Hle].
  - rewrite (descend_mono _ _ _ _ _ Hr1 Hle) in Hr2. congruence.
  - rewrite (descend_mono _ _ _ _ _ Hr2 Hle) in Hr1. congruence.
Qed.

Lemma mapM_total_omap {A B : Type} (f : A → option B) (l : list A) :
  Forall (λ a, is_Some (f a)) l → mapM f l = Some (omap f l).
Proof.
  intros Hl. apply mapM_Some.
  induction Hl as [|a l [b Hb] _ IH]; csimpl; [constructor|].
  rewrite Hb. by constructor.
Qed.

(** The ids of the built forest, for an input with unique ids: each
    attached comment once, nothing else. *)
Lemma forest_ids_built cs m :
  index_ok cs m → NoDup (id <$> cs) →
  ∃ l, forest_ids (length cs) (built m cs) = Some l
       ∧ NoDup l
       ∧ ∀ x, x ∈ l ↔ ∃ c, c ∈ cs ∧ id c = x ∧ attached cs c = true.
Proof.
  intros Hm Huniq.
  set (reach := sweep (length cs) (nodes (built m cs)) (roots (built m cs))).
  set (f := id_at (nodes (built m cs))).
  assert (∀ a, a ∈ reach → ∃ c, cs !! a = Some c ∧ f a = Some (id c)) as Hf.
  { intros a (c & Hc & _)%(sweep_mem cs m Hm Huniq). exists c.
    split; [done|]. unfold f, id_at. by rewrite built_lookup, Hc. }
  exists (omap f reach). split; [|split].
  - unfold forest_ids. rewrite (descend_built cs m Hm Huniq). simpl.
    apply mapM_total_omap, Forall_forall. intros a (c & _ & Hfa)%Hf.
    exists (id c). exact Hfa.
  - apply NoDup_omap_inj; [|apply (NoDup_sweep cs m Hm Huniq _ 0)].
    intros a b x (c & Hc & Hfa)%Hf (d & Hd & Hfb)%Hf Ha Hb.
    eapply unique_ids_lookup; [done..|congruence].
  - intros x. rewrite list_elem_of_omap. split.
    + intros (a & Ha & Hx). pose proof Ha as (c & Hc & Hatt)%(sweep_mem cs m Hm Huniq).
      exists c. split; [by eapply list_elem_of_lookup_2|]. split; [|done].
      unfold f, id_at in Hx. rewrite built_lookup, Hc in Hx. by injection Hx.
    + intros (c & (a & Ha)%list_elem_of_lookup_1 & <- & Hatt).
      exists a. split.
      * apply (sweep_mem cs m Hm Huniq). by exists c.
      * unfold f, id_at. by rewrite built_lookup, Ha.
Qed.

(** ** The forest as trees *)

Lemma mapM_app_Some {A B : Type} (f : A → option B) l1 l2 k :
  mapM f (l1 ++ l2) = Some k ↔
  ∃ k1 k2, mapM f l1 = Some k1 ∧ mapM f l2 = Some k2 ∧ k = k1 ++ k2.
Proof.
  rewrite mapM_Some, Forall2_app_inv_l.
  by setoid_rewrite mapM_Some.
Qed.

Lemma mapM_id_at (store : list Node) (front : list addr) (nds : list Node) :
  mapM (store !!.) front = Some nds →
  mapM (id_at store) front = Some (id ∘ fields <$> nds).
Proof.
  rewrite !mapM_Some. intros Hnds. apply Forall2_fmap_r.
  eapply Forall2_impl; [exact Hnds|].
  intros a nd Ha. unfold id_at. simpl. by rewrite Ha.
Qed.

(** One generation: the trees rooted at [front] are the nodes of [front]
    on top of the trees rooted at their children. *)
Lemma unfold_layer fuel (store : list Node) :
  ∀ (front : list addr) (nds : list Node) (below : list Tree),
  mapM (store !!.) front = Some nds →
  mapM (unfold fuel store) (nds ≫= children) = Some below →
  ∃ ts, mapM (unfold (S fuel) store) front = Some ts
        ∧ ts ≫= tree_ids ≡ₚ (id ∘ fields <$> nds) ++ (below ≫= tree_ids).
Proof.
  induction front as [|a front IH]; intros nds below Hnds Hbelow.
  - apply mapM_Some in Hnds. inversion Hnds; subst.
    simpl in Hbelow. injection Hbelow as <-. by exists [].
  - apply mapM_Some in Hnds.
    inversion Hnds as [|? nd ? nds' Ha Hrest]; subst.
    rewrite bind_cons in Hbelow.
    apply mapM_app_Some in Hbelow as (t1 & t2 & Ht1 & Ht2 & ->).
    destruct (IH nds' t2) as (ts & Hts & Hperm); [by apply mapM_Some | done |].
    exists (TreeNode (fields nd) t1 :: ts). split.
    + apply mapM_Some. constructor; [|by apply mapM_Some].
      cbn [unfold]. rewrite Ha. simpl. by rewrite Ht1.
    + rewrite bind_cons. cbn [tree_ids]. rewrite Hperm, bind_app.
      rewrite fmap_cons. simpl.
      constructor. rewrite !app_assoc. apply Permutation_app_tail.
      apply Permutation_app_comm.
Qed.

(** Where the level-by-level walk succeeds, so does the unfolding into
    trees, and both meet the same ids equally often. *)
Lemma unfold_descend fuel (store : list Node) :
  ∀ (front l : list addr),
  descend fuel store front = Some l →
  ∃ ts ids, mapM (unfold fuel store) front = Some ts
            ∧ mapM (id_at store) l = Some ids
            ∧ ts ≫= tree_ids ≡ₚ ids.
Proof.
  induction fuel as [|fuel IH]; intros front l Hrun.
  - destruct front; [|done]. injection Hrun as <-. by exists [], [].
  - destruct front as [|a front].
    { injection Hrun as <-. by exists [], []. }
    cbn [descend] in Hrun.
    destruct (mapM (store !!.) (a :: front)) as [nds|] eqn:Hnds; [|done].
    cbn [mbind option_bind] in Hrun.
    destruct (descend fuel store (nds ≫= children)) as [below|] eqn:Hbelow;
      [|done].
    injection Hrun as <-.
    destruct (IH _ _ Hbelow) as (ts' & ids' & Hts' & Hids' & Hperm').
    destruct (unfold_layer fuel store _ _ _ Hnds Hts') as (ts & Hts & Hperm).
    exists ts, ((id ∘ fields <$> nds) ++ ids'). split; [done|]. split.
    + apply (mapM_app_Some (id_at store) (a :: front) below). eexists _, _.
      split; [by apply mapM_id_at|]. by split.
    + by rewrite Hperm, Hperm'.
Qed.

Lemma forest_trees_ids fuel F l :
  forest_ids fuel F = Some l →
  ∃ ts, forest_trees fuel F = Some ts ∧ ts ≫= tree_ids ≡ₚ l.
Proof.
  unfold forest_ids, forest_trees. intros Hl.
  destruct (descend fuel (nodes F) (roots F)) as [reach|] eqn:Hreach; [|done].
  destruct (unfold_descend _ _ _ _ Hreach) as (ts & ids & Hts & Hids & Hperm).
  exists ts. split; [done|]. simpl in Hl. congruence.
Qed.

(** ** Small facts *)

Lemma truthy_false p : truthy p = false ↔ p = None ∨ p = Some 0.
Proof.
  destruct p as [n|]; simpl; [|by split; [left|]].
  rewrite negb_false_iff, Z.eqb_eq.
  split; [intros ->; by right | by intros [|[=]]].
Qed.

Lemma descend_no_roots fuel store : descend fuel store [] = Some [].
Proof. by destruct fuel. Qed.

(** ** C1: coverage *)

(** C1, counterexample: the forest built from a single comment whose parent
    id 999 is not in the input is empty, so id 5 is not reachable. *)
Lemma C1_orphan_is_dropped :
  NoDup (id <$> [sample 5 (Some 999) "orphan"])
  ∧ ¬ covers_input [sample 5 (Some 999) "orphan"].
Proof.
  split; [compute_done|].
  intros (F & fuel & l & HF & Hl & Hperm).
  vm_compute in HF. injection HF as <-.
  unfold forest_ids in Hl. simpl in Hl.
  rewrite descend_no_roots in Hl. simpl in Hl. injection Hl as <-.
  by apply Permutation_nil_cons in Hperm.
Qed.

(** C1, amended: for an input with unique ids the walk over the returned
    forest ends, and the ids it meets are, as a multiset, the ids of the
    attached comments: those whose chain of parent ids leads, through
    comments of the input, to a comment whose parent id is null or 0.  The
    forest unfolded into trees carries the same ids.  They are all the input
    ids exactly when every comment is attached. *)
Theorem C1_reachable_ids (cs : list Comment) :
  NoDup (id <$> cs) →
  ∃ F l,
    buildCommentTree cs = Some F
    ∧ forest_ids (length cs) F = Some l
    ∧ (∀ fuel l', forest_ids fuel F = Some l' → l' = l)
    ∧ (∃ ts, forest_trees (length cs) F = Some ts ∧ ts ≫= tree_ids ≡ₚ l)
    ∧ l ≡ₚ id <$> filter (attached cs) cs
    ∧ (l ≡ₚ id <$> cs ↔ ∀ c, c ∈ cs → attached cs c = true).
Proof.
  intros Huniq.
  destruct (build_shape cs) as (m & Hm & HF).
  destruct (forest_ids_built cs m Hm Huniq) as (l & Hl & Hnd & Hmem).
  exists (built m cs), l. split; [done|]. split; [done|].
  split; [intros fuel l' Hl'; by eapply forest_ids_agree|].
  split; [by apply forest_trees_ids|].
  split.
  - apply NoDup_Permutation; [done| |].
    + eapply sublist_NoDup; [exact Huniq | apply fmap_sublist, sublist_filter].
    + intros x. rewrite Hmem, list_elem_of_fmap. split.
      * intros (c & Hc & <- & Hatt). exists c. split; [done|].
        apply list_elem_of_filter. split; [by apply Is_true_true|done].
      * intros (c & -> & [Hatt Hc]%list_elem_of_filter). exists c.
        split; [done|]. split; [done|]. by apply Is_true_true.
  - split.
    + intros Hperm c Hc.
      assert (id c ∈ l) as (c' & Hc' & Hid & Hatt)%Hmem.
      { rewrite Hperm. by apply list_elem_of_fmap_2. }
      apply list_elem_of_lookup_1 in Hc as [i Hi].
      apply list_elem_of_lookup_1 in Hc' as [i' Hi'].
      assert (i' = i) as -> by by eapply unique_ids_lookup.
      congruence.
    + intros Hall. apply NoDup_Permutation; [done..|].
      intros x. rewrite Hmem, list_elem_of_fmap. split.
      * intros (c & Hc & <- & _). by exists c.
      * intros (c & -> & Hc). exists c. eauto.
Qed.

Example mixed_input_forest_ids :
  (buildCommentTree mixed_input ≫= forest_ids 7) = Some [1; 2; 3; 4].
Proof. reflexivity. Qed.

Lemma C1_reachable_ids_witness :
  NoDup (id <$> mixed_input)
  ∧ ∃ F l,
      buildCommentTree mixed_input = Some F
      ∧ forest_ids (length mixed_input) F = Some l
      ∧ (∀ fuel l', forest_ids fuel F = Some l' → l' = l)
      ∧ (∃ ts, forest_trees (length mixed_input) F = Some ts
               ∧ ts ≫= tree_ids ≡ₚ l)
      ∧ l ≡ₚ id <$> filter (attached mixed_input) mixed_input
      ∧ (l ≡ₚ id <$> mixed_input
         ↔ ∀ c, c ∈ mixed_input → attached mixed_input c = true).
Proof.
  split; [compute_done | apply (C1_reachable_ids mixed_input); compute_done].
Defined.

(** ** C5: no duplication *)

(** C5: for an input with unique ids the walk over the returned forest ends
    and meets no id twice, roots and descendants taken together; the same
    holds for the forest unfolded into trees. *)
Theorem C5_no_id_twice (cs : list Comment) :
  NoDup (id <$> cs) →
  ∃ F,
    buildCommentTree cs = Some F
    ∧ is_Some (forest_ids (length cs) F)
    ∧ (∀ fuel l, forest_ids fuel F = Some l → NoDup l)
    ∧ ∃ ts, forest_trees (length cs) F = Some ts ∧ NoDup (ts ≫= tree_ids).
Proof.
  intros Huniq.
  destruct (build_shape cs) as (m & Hm & HF).
  destruct (forest_ids_built cs m Hm Huniq) as (l & Hl & Hnd & _).
  exists (built m cs). split; [done|]. split; [by exists l|]. split.
  - intros fuel l' Hl'. by rewrite (forest_ids_agree _ _ _ _ _ Hl' Hl).
  - destruct (forest_trees_ids _ _ _ Hl) as (ts & Hts & Hperm).
    exists ts. split; [done|]. by rewrite Hperm.
Qed.

Lemma C5_no_id_twice_witness :
  NoDup (id <$> mixed_input)
  ∧ ∃ F,
      buildCommentTree mixed_input = Some F
      ∧ is_Some (forest_ids (length mixed_input) F)
      ∧ (∀ fuel l, forest_ids fuel F = Some l → NoDup l)
      ∧ ∃ ts, forest_trees (length mixed_input) F = Some ts
              ∧ NoDup (ts ≫= tree_ids).
Proof.
  split; [compute_done | apply (C5_no_id_twice mixed_input); compute_done].
Defined.

(** ** C2: which comments are roots *)

(** C2, counterexample: the only comment of the input has parent id 999,
    which is the id of no other comment, yet it is not a root. *)
Lemma C2_orphan_is_not_promoted :
  NoDup (id <$> [sample 5 (Some 999) "orphan"])
  ∧ ¬ roots_are_unresolved [sample 5 (Some 999) "orphan"].
Proof.
  split; [compute_done|].
  intros (F & HF & Hiff).
  vm_compute in HF. injection HF as <-.
  destruct (Hiff (sample 5 (Some 999) "orphan")) as [_ Hroot]; [by left|].
  destruct Hroot as (a & Ha & _).
  - right. intros d ->%list_elem_of_singleton. done.
  - by apply elem_of_nil in Ha.
Qed.

Lemma is_root_built cs m c :
  index_ok cs m → NoDup (id <$> cs) → c ∈ cs →
  is_root (built m cs) c ↔ truthy (parent_comment_id c) = false.
Proof.
  intros Hm Huniq Hc. unfold is_root. split.
  - intros (a & (c' & Hc' & Hf)%(roots_mem cs m Hm Huniq) & Hd).
    rewrite built_deref in Hd. congruence.
  - intros Hf. apply list_elem_of_lookup_1 in Hc as [a Ha].
    exists a. split; [|by rewrite built_deref].
    apply (roots_mem cs m Hm Huniq). by exists c.
Qed.

Lemma is_child_built cs m c :
  index_ok cs m → NoDup (id <$> cs) →
  is_child (built m cs) c →
  ∃ d, d ∈ cs ∧ reply_to d c = true.
Proof.
  intros Hm Huniq (nd & a & (j & Hj)%list_elem_of_lookup_1 & Ha & Hd).
  assert (a ∈ kids (nodes (built m cs)) j) as Hk.
  { unfold kids. by rewrite Hj. }
  apply (kids_mem cs m Hm Huniq) in Hk as (c' & Hc' & Hr).
  rewrite built_deref in Hd. assert (c' = c) as -> by congruence.
  unfold reply_at in Hr. destruct (cs !! j) as [d|] eqn:Hdj; [|done].
  exists d. split; [by eapply list_elem_of_lookup_2 | done].
Qed.

(** C2, amended: for an input with unique ids a comment is a root of the
    returned forest exactly when its [parent_comment_id] is null or 0.  A
    comment whose non-zero parent id is not the id of any input comment is
    not promoted: it is neither a root nor a child of any node. *)
Theorem C2_root_iff_no_parent (cs : list Comment) :
  NoDup (id <$> cs) →
  ∃ F,
    buildCommentTree cs = Some F
    ∧ (∀ c, c ∈ cs →
         is_root F c ↔
         (parent_comment_id c = None ∨ parent_comment_id c = Some 0))
    ∧ (∀ c p, c ∈ cs → parent_comment_id c = Some p → p ≠ 0 →
         p ∉ id <$> cs → ¬ is_root F c ∧ ¬ is_child F c).
Proof.
  intros Huniq.
  destruct (build_shape cs) as (m & Hm & HF).
  exists (built m cs). split; [done|]. split.
  - intros c Hc. by rewrite is_root_built, truthy_false.
  - intros c p Hc Hp Hp0 Hnot. split.
    + rewrite is_root_built, truthy_false by done.
      intros [?|?]; congruence.
    + intros (d & Hd & Hr)%(is_child_built cs m c Hm Huniq).
      apply andb_prop in Hr as [_ Hr%bool_decide_eq_true].
      apply Hnot. apply list_elem_of_fmap. exists d.
      split; [congruence | done].
Qed.

Lemma C2_root_iff_no_parent_witness :
  NoDup (id <$> mixed_input)
  ∧ ∃ F,
      buildCommentTree mixed_input = Some F
      ∧ (∀ c, c ∈ mixed_input →
           is_root F c ↔
           (parent_comment_id c = None ∨ parent_comment_id c = Some 0))
      ∧ (∀ c p, c ∈ mixed_input → parent_comment_id c = Some p → p ≠ 0 →
           p ∉ id <$> mixed_input → ¬ is_root F c ∧ ¬ is_child F c).
Proof.
  split; [compute_done | apply (C2_root_iff_no_parent mixed_input); compute_done].
Defined.

(** ** C4: order of children and of roots *)

(** C4: for an input with unique ids, the children of every node, read in
    array order, are the input comments replying to that node, in input
    order; the roots, read in array order, are the input comments with a
    null or 0 parent id, in input order.  Both are subsequences of the
    input. *)
Theorem C4_input_order_kept (cs : list Comment) :
  NoDup (id <$> cs) →
  ∃ F,
    buildCommentTree cs = Some F
    ∧ mapM (deref F) (roots F) = Some (filter top_level cs)
    ∧ filter top_level cs `sublist_of` cs
    ∧ ∀ nd, nd ∈ nodes F →
        mapM (deref F) (children nd) = Some (filter (reply_to (fields nd)) cs)
        ∧ filter (reply_to (fields nd)) cs `sublist_of` cs.
Proof.
  intros Huniq.
  destruct (build_shape cs) as (m & Hm & HF).
  exists (built m cs). split; [done|].
  split; [|split; [apply sublist_filter|]].
  - unfold built at 2. simpl. apply mapM_omap_filter.
    intros c (i & Hi)%list_elem_of_lookup_1.
    rewrite (root_ref_at cs m Hm Huniq i c Hi). unfold top_level.
    destruct (truthy (parent_comment_id c)); simpl; [done|].
    exists i. by rewrite built_deref.
  - intros nd (j & Hj)%list_elem_of_lookup_1.
    split; [|apply sublist_filter].
    rewrite built_lookup in Hj.
    destruct (cs !! j) as [d|] eqn:Hd; [|done].
    injection Hj as <-. simpl. apply mapM_omap_filter.
    intros c (i & Hi)%list_elem_of_lookup_1.
    rewrite (child_ref_at cs m Hm Huniq i j c Hi). unfold reply_at.
    rewrite Hd. destruct (reply_to d c); [|done].
    exists i. by rewrite built_deref.
Qed.

Lemma C4_input_order_kept_witness :
  NoDup (id <$> mixed_input)
  ∧ ∃ F,
      buildCommentTree mixed_input = Some F
      ∧ mapM (deref F) (roots F) = Some (filter top_level mixed_input)
      ∧ filter top_level mixed_input `sublist_of` mixed_input
      ∧ ∀ nd, nd ∈ nodes F →
          mapM (deref F) (children nd)
          = Some (filter (reply_to (fields nd)) mixed_input)
          ∧ filter (reply_to (fields nd)) mixed_input `sublist_of` mixed_input.
Proof.
  split; [compute_done | apply (C4_input_order_kept mixed_input); compute_done].
Defined.

(** ** C3: the reference algorithm *)




(** ** C6: totality *)

(** C6: on every input list, cyclic or self-referential parent ids
    included, both loops run to the end (no non-null assertion fails) and
    the builder returns a forest; the store holds one node per input
    comment, in input order, with the comment's fields copied.  The result
    depends on the input list only. *)
Theorem C6_builder_total (cs : list Comment) :
  ∃ F, buildCommentTree cs = Some F ∧ fields <$> nodes F = cs.
Proof.
  destruct (build_shape cs) as (m & _ & HF).
  exists (built m cs). split; [done|].
  apply list_eq. intros j. rewrite list_lookup_fmap, built_lookup.
  by destruct (cs !! j).
Qed.

(** ** C7: derived counts *)

(** C7: [totalComments] is the length of the input, [rootComments] the
    number of entries of the returned roots array, and the empty input gives
    the empty forest with both counts 0. *)
Theorem C7_counts (cs : list Comment) :
  totalComments (Some cs) = length cs
  ∧ (∃ F, buildCommentTree cs = Some F
          ∧ commentTree (Some cs) = Some F
          ∧ rootComments (Some cs) = Some (length (roots F)))
  ∧ commentTree (Some []) = Some (mkForest [] [])
  ∧ totalComments (Some []) = 0%nat
  ∧ rootComments (Some []) = Some 0%nat.
Proof.
  split; [|split; [|done]].
  - unfold totalComments. case_decide; congruence.
  - destruct (build_shape cs) as (m & _ & HF).
    exists (built m cs). split; [done|]. split; [done|].
    unfold rootComments. simpl. by rewrite HF.
Qed.

(** ** C8: submission needs a logged-in user *)

(** C8: when the user id or the display name is absent, [createComment] and
    [createReply] throw their login error and no insert is issued: the log
    of inserts is unchanged. *)
Theorem C8_login_required
    (respond : list InsertRow → InsertRow → option string)
    (newComment : NewComment) (replyContent : string)
    (postId parentCommentId : Z) (userId author : option string)
    (log : list InsertRow) :
  userId = None ∨ author = None →
  createComment respond newComment postId userId author log
    = (Thrown "You must be logged in to comment.", log)
  ∧ createReply respond replyContent postId parentCommentId userId author log
    = (Thrown "You must be logged in to reply.", log).
Proof.
  unfold createComment, createReply.
  intros [-> | ->]; simpl; [done|].
  by rewrite orb_true_r.
Qed.

Lemma C8_login_required_witness :
  (@None string = None ∨ Some "ann"%string = None)
  ∧ createComment (λ _ _, None) (mkNewComment "hello" None) 7
      None (Some "ann") []
    = (Thrown "You must be logged in to comment.", [])
  ∧ createReply (λ _ _, None) "hi" 7 3 None (Some "ann") []
    = (Thrown "You must be logged in to reply.", []).
Proof.
  split; [by left|].
  apply (C8_login_required (λ _ _, None) (mkNewComment "hello" None) "hi"
           7 3 None (Some "ann") []).
  by left.
Defined.

Example createComment_logged_in :
  createComment (λ _ _, None) (mkNewComment "hello" (Some 0)) 7
    (Some "u1") (Some "ann") []
  = (Fulfilled, [mkInsertRow 7 "hello" None "u1" "ann"]).
Proof. reflexivity. Qed.

Example createReply_store_error :
  createReply (λ _ _, Some "denied") "hi" 7 3 (Some "u1") (Some "ann") []
  = (Thrown "denied", [mkInsertRow 7 "hi" (Some 3) "u1" "ann"]).
Proof. reflexivity. Qed.

(** ** C9: a parent id of 0 *)

Lemma null_zero_id c : id (null_zero_parent c) = id c.
Proof.
  unfold null_zero_parent. by destruct (parent_comment_id c) as [[]|].
Qed.

Lemma null_zero_truthy c :
  truthy (parent_comment_id (null_zero_parent c))
  = truthy (parent_comment_id c).
Proof.
  unfold null_zero_parent.
  by destruct (parent_comment_id c) as [[]|] eqn:Hp; simpl; rewrite ?Hp.
Qed.

Lemma null_zero_keeps c :
  truthy (parent_comment_id c) = true →
  parent_comment_id (null_zero_parent c) = parent_comment_id c.
Proof.
  unfold null_zero_parent. by destruct (parent_comment_id c) as [[]|] eqn:Hp.
Qed.

Lemma first_pass_null_zero (cs : list Comment) :
  ∀ (m : gmap Z addr) (store : list Node),
  forEach set_node (null_zero_parent <$> cs) (m, null_zero_node <$> store)
  = (λ st : gmap Z addr * list Node, (st.1, null_zero_node <$> st.2))
      <$> forEach set_node cs (m, store).
Proof.
  induction cs as [|c cs IH]; intros m store; [done|].
  cbn [fmap list_fmap forEach set_node mbind option_bind].
  rewrite null_zero_id, length_fmap.
  change (mkNode (null_zero_parent c) []) with (null_zero_node (mkNode c [])).
  change [null_zero_node (mkNode c [])]
    with (null_zero_node <$> [mkNode c []]).
  rewrite <- fmap_app. apply IH.
Qed.

Lemma link_null_zero (m : gmap Z addr) (c : Comment) (store : list Node)
    (rs : list addr) :
  link m (null_zero_parent c) (null_zero_node <$> store, rs)
  = (λ st : list Node * list addr, (null_zero_node <$> st.1, st.2))
      <$> link m c (store, rs).
Proof.
  unfold link. rewrite null_zero_truthy, null_zero_id.
  destruct (truthy (parent_comment_id c)) eqn:Htr.
  - rewrite null_zero_keeps by done.
    destruct (parent_comment_id c ≫= (m !!.)) as [parent|]; [|done].
    destruct (m !! id c) as [self|]; [|done]. simpl.
    unfold push_child. rewrite list_lookup_fmap.
    destruct (store !! parent) as [nd|]; [|done]. simpl.
    by rewrite list_fmap_insert.
  - by destruct (m !! id c).
Qed.

Lemma second_pass_null_zero (m : gmap Z addr) (cs : list Comment) :
  ∀ (store : list Node) (rs : list addr),
  forEach (link m) (null_zero_parent <$> cs) (null_zero_node <$> store, rs)
  = (λ st : list Node * list addr, (null_zero_node <$> st.1, st.2))
      <$> forEach (link m) cs (store, rs).
Proof.
  induction cs as [|c cs IH]; intros store rs; [done|].
  cbn [fmap list_fmap forEach]. rewrite link_null_zero.
  destruct (link m c (store, rs)) as [[store1 rs1]|]; [|done].
  apply IH.
Qed.

Lemma build_null_zero cs :
  buildCommentTree (null_zero_parent <$> cs) = relabel <$> buildCommentTree cs.
Proof.
  unfold buildCommentTree.
  pose proof (first_pass_null_zero cs ∅ []) as H1. simpl in H1. rewrite H1.
  destruct (forEach set_node cs (∅, [])) as [[m store]|]; [|done]. simpl.
  rewrite second_pass_null_zero.
  by destruct (forEach (link m) cs (store, [])) as [[store' rs]|].
Qed.

(** C9: on every input, a comment whose [parent_comment_id] is 0 has its
    node appended to roots, whether or not a comment with id 0 is in the
    input; with unique ids it is a root and nobody's child.  The forest has
    the same references as the one built after rewriting every parent id of
    0 to null. *)
Theorem C9_zero_parent_is_root (cs : list Comment) (c : Comment) :
  c ∈ cs → parent_comment_id c = Some 0 →
  ∃ F,
    buildCommentTree cs = Some F
    ∧ (∃ a nd, a ∈ roots F ∧ nodes F !! a = Some nd
               ∧ id (fields nd) = id c)
    ∧ (NoDup (id <$> cs) → is_root F c ∧ ¬ is_child F c)
    ∧ buildCommentTree (null_zero_parent <$> cs) = Some (relabel F).
Proof.
  intros Hc Hp.
  destruct (build_shape cs) as (m & Hm & HF).
  exists (built m cs). split; [done|].
  assert (truthy (parent_comment_id c) = false) as Htr by by rewrite Hp.
  split; [|split].
  - destruct (index_total _ _ Hm c Hc) as [a Ha].
    destruct (index_sound _ _ Hm _ _ Ha) as (c' & Hc' & Hid).
    exists a, (mkNode c' (omap (child_ref m a) cs)).
    split; [|split; [|done]].
    + unfold built. simpl. apply list_elem_of_omap. exists c.
      split; [done|]. unfold root_ref. by rewrite Htr.
    + by rewrite built_lookup, Hc'.
  - intros Huniq. split; [by apply is_root_built|].
    intros (d & _ & Hr)%(is_child_built cs m c Hm Huniq).
    unfold reply_to in Hr. by rewrite Htr in Hr.
  - by rewrite build_null_zero, HF.
Qed.

Lemma C9_zero_parent_is_root_witness :
  (sample 7 (Some 0) "reply to zero" ∈ zero_input
   ∧ parent_comment_id (sample 7 (Some 0) "reply to zero") = Some 0)
  ∧ ∃ F,
      buildCommentTree zero_input = Some F
      ∧ (∃ a nd, a ∈ roots F ∧ nodes F !! a = Some nd
                 ∧ id (fields nd) = id (sample 7 (Some 0) "reply to zero"))
      ∧ (NoDup (id <$> zero_input) →
           is_root F (sample 7 (Some 0) "reply to zero")
           ∧ ¬ is_child F (sample 7 (Some 0) "reply to zero"))
      ∧ buildCommentTree (null_zero_parent <$> zero_input)
        = Some (relabel F).
Proof.
  split; [split; [compute_done | reflexivity]|].
  apply (C9_zero_parent_is_root zero_input (sample 7 (Some 0) "reply to zero"));
    [compute_done | reflexivity].
Defined.

Example zero_input_roots :
  roots <$> buildCommentTree zero_input = Some [0; 1]%nat.
Proof. reflexivity. Qed.

Example zero_input_reference_roots :
  roots <$> buildCommentTree_spec zero_input = Some [0%nat].
Proof. reflexivity. Qed.

(** ** C10: two comments with one id *)

(** C10: there is an input with two comments of the same id for which both
    entries of the returned roots array are the same node object, and that
    object carries the fields of the later comment. *)
Theorem C10_duplicate_id_shares_node :
  ∃ first later F a nd,
    id first = id later
    ∧ content first ≠ content later
    ∧ buildCommentTree [first; later] = Some F
    ∧ roots F = [a; a]
    ∧ nodes F !! a = Some nd
    ∧ fields nd = later
    ∧ children nd = []
    ∧ mapM (deref F) (roots F) = Some [later; later].
Proof.
  exists (sample 1 None "first"), (sample 1 None "second").
  eexists _, 1%nat, _.
  split; [done|]. split; [done|]. split; [reflexivity|].
  repeat split; reflexivity.
Qed.

(** * Further properties of the builder and of the forms *)

(** ** The lookup table keeps the last comment of each id *)

Lemma first_pass_last cs :
  ∃ m, forEach set_node cs (∅, []) = Some (m, fresh_nodes cs)
       ∧ index_ok cs m ∧ index_last cs m.
Proof.
  induction cs as [|c cs (m & Hrun & Hm & Hlast)] using rev_ind.
  - exists ∅. split; [done|]. split.
    + split; [by intros c ?%elem_of_nil | intros k a; by rewrite lookup_empty].
    + intros k a i c. by rewrite lookup_empty.
  - destruct (first_pass (cs ++ [c])) as (m' & Hrun' & Hm').
    exists m'. split; [done|]. split; [done|].
    rewrite forEach_app, Hrun in Hrun'. simpl in Hrun'.
    injection Hrun' as <- _.
    intros k a i c' Hk Hi Hid.
    unfold fresh_nodes in Hk. rewrite length_fmap in Hk.
    destruct (decide (id c = k)) as [<-|Hne].
    + rewrite lookup_insert_eq in Hk. injection Hk as <-.
      apply lookup_lt_Some in Hi. rewrite length_app in Hi. simpl in Hi. lia.
    + rewrite lookup_insert_ne in Hk by done.
      destruct (decide (i < length cs)%nat) as [Hlt|Hge].
      * rewrite lookup_app_l in Hi by done. by eapply Hlast.
      * rewrite lookup_app_r in Hi by lia.
        destruct (i - length cs)%nat; simpl in Hi; [|done]. congruence.
Qed.

Lemma build_of_run cs m :
  forEach set_node cs (∅, []) = Some (m, fresh_nodes cs) → index_ok cs m →
  buildCommentTree cs = Some (built m cs).
Proof.
  intros Hrun1 Hm.
  destruct (second_pass m cs (fresh_nodes cs) []) as (store' & Hrun2 & _ & Hlook).
  { apply Hm. }
  { intros k a Hk. destruct (index_sound _ _ Hm k a Hk) as (c & Hc & _).
    unfold fresh_nodes. rewrite length_fmap. by eapply lookup_lt_Some. }
  unfold buildCommentTree. rewrite Hrun1. simpl. rewrite Hrun2. simpl.
  unfold built. do 2 f_equal.
  apply list_eq. intros j. rewrite Hlook, list_lookup_imap.
  unfold fresh_nodes. rewrite list_lookup_fmap.
  by destruct (cs !! j).
Qed.

Lemma build_shape_last cs :
  ∃ m, index_ok cs m ∧ index_last cs m ∧ buildCommentTree cs = Some (built m cs).
Proof.
  destruct (first_pass_last cs) as (m & Hrun & Hm & Hlast).
  exists m. split; [done|]. split; [done|]. by apply build_of_run.
Qed.

(** ** Counting pushes *)

Lemma length_omap_filter {A B : Type} (f : A → option B) (P : A → bool)
    (l : list A) :
  (∀ x, x ∈ l → is_Some (f x) ↔ P x = true) →
  length (omap f l) = length (filter P l).
Proof.
  induction l as [|x l IH]; intros Hl; [done|].
  assert (length (omap f l) = length (filter P l)) as Hrec.
  { apply IH. intros y Hy. apply Hl. by right. }
  specialize (Hl x (list_elem_of_here _ _)).
  rewrite filter_cons. csimpl. destruct (P x) eqn:HP.
  - destruct (proj2 Hl eq_refl) as [b ->].
    rewrite decide_True by done. simpl. by rewrite Hrec.
  - destruct (f x) as [b|] eqn:Hfx.
    + destruct Hl as [Hl _]. by specialize (Hl (mk_is_Some _ _ eq_refl)).
    + by rewrite decide_False by (simpl; tauto).
Qed.

Lemma sum_list_fmap_add {A : Type} (f g : A → nat) (l : list A) :
  sum_list ((λ x, f x + g x)%nat <$> l)
  = (sum_list (f <$> l) + sum_list (g <$> l))%nat.
Proof. induction l as [|x l IH]; csimpl; [done|]. rewrite IH. lia. Qed.

Lemma sum_list_fmap_zero {A : Type} (f : A → nat) (l : list A) :
  (∀ x, x ∈ l → f x = 0%nat) → sum_list (f <$> l) = 0%nat.
Proof.
  intros Hl. rewrite (sum_list_fmap_same 0); [lia|].
  by apply Forall_forall.
Qed.

Lemma sum_list_fmap_once (f : nat → nat) (n pa : nat) :
  (pa < n)%nat → f pa = 1%nat → (∀ j, j ≠ pa → f j = 0%nat) →
  sum_list (f <$> seq 0 n) = 1%nat.
Proof.
  intros Hlt Hpa Hother.
  replace n with (pa + S (n - S pa))%nat by lia.
  rewrite seq_app, fmap_app, sum_list_with_app. csimpl.
  rewrite Hpa, !sum_list_fmap_zero; [lia| |].
  - intros j Hj%elem_of_seq. apply Hother. lia.
  - intros j Hj%elem_of_seq. apply Hother. lia.
Qed.

Lemma omap_singleton {A B : Type} (f : A → option B) (x : A) :
  omap f [x] = match f x with Some y => [y] | None => [] end.
Proof. done. Qed.

Lemma sum_pushes_one (m : gmap Z addr) (c : Comment) (n : nat) :
  is_Some (m !! id c) →
  (∀ k a, m !! k = Some a → (a < n)%nat) →
  sum_list ((λ j, length (omap (child_ref m j) [c])) <$> seq 0 n)
  = if linked m c then 1%nat else 0%nat.
Proof.
  intros [self Hself] Hrange. unfold linked.
  destruct (truthy (parent_comment_id c)) eqn:Htr; simpl.
  - destruct (parent_comment_id c ≫= (m !!.)) as [pa|] eqn:Hpar.
    + rewrite bool_decide_true by eauto.
      apply (sum_list_fmap_once _ n pa).
      * destruct (parent_comment_id c); simplify_eq/=. eauto.
      * cbv beta. rewrite ?omap_singleton. unfold child_ref.
        by rewrite Htr, Hpar, decide_True, Hself.
      * intros j Hj. cbv beta. rewrite ?omap_singleton. unfold child_ref.
        by rewrite Htr, Hpar, decide_False.
    + rewrite bool_decide_false by (by intros [? ?]).
      apply sum_list_fmap_zero. intros j _. cbv beta.
      rewrite ?omap_singleton. unfold child_ref. by rewrite Htr, Hpar.
  - apply sum_list_fmap_zero. intros j _. cbv beta.
    rewrite ?omap_singleton. unfold child_ref. by rewrite Htr.
Qed.

Lemma sum_pushes (m : gmap Z addr) (procs : list Comment) (n : nat) :
  (∀ c, c ∈ procs → is_Some (m !! id c)) →
  (∀ k a, m !! k = Some a → (a < n)%nat) →
  sum_list ((λ j, length (omap (child_ref m j) procs)) <$> seq 0 n)
  = length (filter (linked m) procs).
Proof.
  intros Htot Hrange. induction procs as [|c procs IH].
  - apply sum_list_fmap_zero. by intros.
  - assert (∀ j, length (omap (child_ref m j) (c :: procs))
                 = (length (omap (child_ref m j) [c])
                    + length (omap (child_ref m j) procs))%nat) as Hsplit.
    { intros j. change (c :: procs) with ([c] ++ procs).
      by rewrite omap_app, length_app. }
    erewrite list_fmap_ext; [|intros i j _; apply Hsplit].
    rewrite sum_list_fmap_add, sum_pushes_one, IH.
    + rewrite filter_cons. by destruct (linked m c).
    + intros c' Hc'. apply Htot. by right.
    + apply Htot. by left.
    + done.
Qed.

Lemma replyCount_length nd : replyCount nd = length (children nd).
Proof. unfold replyCount. case_decide; congruence. Qed.

Lemma length_filter_or {A : Type} (P Q : A → bool) (l : list A) :
  (∀ x, x ∈ l → P x = true → Q x = false) →
  (length (filter P l) + length (filter Q l))%nat
  = length (filter (λ x, P x || Q x) l).
Proof.
  induction l as [|x l IH]; intros Hl; [done|].
  rewrite !filter_cons.
  pose proof (Hl x (list_elem_of_here _ _)) as Hx.
  assert ((length (filter P l) + length (filter Q l))%nat
          = length (filter (λ x, P x || Q x) l)) as Hrec.
  { apply IH. intros y Hy. apply Hl. by right. }
  destruct (P x) eqn:HP; simpl.
  - rewrite (Hx eq_refl). simpl. lia.
  - destruct (Q x); simpl; lia.
Qed.

Lemma length_filter_all {A : Type} (P : A → bool) (l : list A) :
  length (filter P l) = length l ↔ Forall (λ x, P x = true) l.
Proof.
  split.
  - intros Hlen. apply Forall_forall. intros x Hx.
    destruct (P x) eqn:HP; [done|].
    assert (length (filter P l) < length l)%nat; [|lia].
    apply (length_filter_lt _ l x Hx).
    intros HT%Is_true_true. congruence.
  - intros Hall. induction Hall as [|x l Hx _ IH]; [done|].
    rewrite filter_cons, Hx. simpl. by rewrite IH.
Qed.

Lemma placed_cases cs m c :
  index_ok cs m → placed cs c = top_level c || linked m c.
Proof.
  intros Hm. unfold placed, top_level, linked.
  destruct (parent_comment_id c) as [p|]; simpl; [|done].
  destruct (p =? 0) eqn:Hp; simpl; [done|].
  apply bool_decide_ext. symmetry. apply (index_resolves cs m p Hm).
Qed.

(** ** X2: number of roots, and the empty panel *)

(** X2: on every input, duplicates included, the returned roots array has
    one entry per input comment whose parent id is null or 0, so
    [rootComments] is their number.  While the query is loading the
    skeleton is returned, and with an error the error panel; otherwise the
    list of threads is rendered exactly when there is such a comment, and
    the "No Comments Yet" panel if there is none, whatever [totalComments]
    says. *)
Theorem X2_root_count (cs : list Comment) :
  ∃ F,
    buildCommentTree cs = Some F
    ∧ length (roots F) = length (filter top_level cs)
    ∧ rootComments (Some cs) = Some (length (filter top_level cs))
    ∧ ∀ isLoading error,
        comments_panel isLoading error (Some cs)
        = Some
            (if isLoading then LoadingPanel
             else
               match error with
               | Some message => ErrorPanel message
               | None =>
                   if bool_decide (Exists (λ c, top_level c = true) cs)
                   then ThreadList (roots F)
                   else NoCommentsYet
               end).
Proof.
  destruct (build_shape cs) as (m & Hm & HF).
  assert (length (roots (built m cs)) = length (filter top_level cs)) as Hlen.
  { unfold built. simpl. apply length_omap_filter.
    intros c Hc. unfold root_ref, top_level.
    destruct (truthy (parent_comment_id c)); simpl.
    - split; [by intros [? ?] | done].
    - split; [done|]. intros _. by apply (index_total _ _ Hm). }
  exists (built m cs). split; [done|]. split; [done|]. split.
  - unfold rootComments, commentTree. rewrite HF.
    cbn [mbind option_bind]. by rewrite Hlen.
  - intros isLoading error. unfold comments_panel, commentTree. rewrite HF.
    cbn [mbind option_bind]. f_equal.
    rewrite Hlen.
    rewrite (bool_decide_ext (0 < length (filter top_level cs))%nat
               (Exists (λ c, top_level c = true) cs)); [done|].
    split.
    + intros Hpos. destruct (filter top_level cs) as [|c l] eqn:Hfil;
        [simpl in Hpos; lia|].
      assert (c ∈ filter top_level cs) as [Htop Hc]%list_elem_of_filter
        by (rewrite Hfil; left).
      apply Exists_exists. exists c. split; [done|]. by apply Is_true_true.
    + intros (c & Hc & Htop)%Exists_exists.
      assert (c ∈ filter top_level cs) as Hin.
      { apply list_elem_of_filter. split; [by apply Is_true_true | done]. }
      destruct (filter top_level cs); [by apply elem_of_nil in Hin|].
      simpl. lia.
Qed.

(** ** X3: threads and replies against the total *)

(** X3: on every input the number of roots plus the reply counts of all
    nodes is the number of input comments whose parent id is null, 0, or
    the id of an input comment; it equals [totalComments] exactly when every
    input comment is of that kind. *)
Theorem X3_counts_add_up (cs : list Comment) :
  ∃ F,
    buildCommentTree cs = Some F
    ∧ (length (roots F) + sum_list (replyCount <$> nodes F))%nat
      = length (filter (placed cs) cs)
    ∧ ((length (roots F) + sum_list (replyCount <$> nodes F))%nat
         = totalComments (Some cs)
       ↔ Forall (λ c, placed cs c = true) cs).
Proof.
  destruct (build_shape cs) as (m & Hm & HF).
  exists (built m cs). split; [done|].
  assert ((length (roots (built m cs))
           + sum_list (replyCount <$> nodes (built m cs)))%nat
          = length (filter (placed cs) cs)) as Hsum.
  { assert (length (roots (built m cs)) = length (filter top_level cs)) as ->.
    { unfold built. simpl. apply length_omap_filter.
      intros c Hc. unfold root_ref, top_level.
      destruct (truthy (parent_comment_id c)); simpl.
      - split; [by intros [? ?] | done].
      - split; [done|]. intros _. by apply (index_total _ _ Hm). }
    assert (replyCount <$> nodes (built m cs)
            = (λ j, length (omap (child_ref m j) cs)) <$> seq 0 (length cs))
      as ->.
    { apply list_eq. intros j.
      rewrite !list_lookup_fmap, built_lookup.
      destruct (cs !! j) as [d|] eqn:Hd; simpl.
      - rewrite lookup_seq_lt by by eapply lookup_lt_Some.
        simpl. by rewrite replyCount_length.
      - rewrite lookup_seq_ge; [done|]. by apply lookup_ge_None. }
    rewrite sum_pushes.
    - rewrite length_filter_or.
      + f_equal. apply list_filter_iff. intros c.
        by rewrite (placed_cases cs m c Hm).
      + intros c _. unfold top_level, linked.
        by destruct (truthy (parent_comment_id c)).
    - apply Hm.
    - intros k a Hk. destruct (index_sound _ _ Hm k a Hk) as (c & Hc & _).
      by eapply lookup_lt_Some. }
  split; [done|]. rewrite Hsum.
  assert (totalComments (Some cs) = length cs) as ->.
  { unfold totalComments. case_decide; congruence. }
  apply length_filter_all.
Qed.

(** ** X1: what the arrays refer to *)

(** X1: on every input the store holds one node per input comment; every
    entry of the roots array is the node of the id of an input comment
    whose parent id is null or 0, and every entry of a node's children array
    is the node of the id of an input comment that names that node's id as
    its non-zero parent. *)
Theorem X1_references_are_sound (cs : list Comment) :
  ∃ F,
    buildCommentTree cs = Some F
    ∧ length (nodes F) = length cs
    ∧ (∀ a, a ∈ roots F →
         ∃ c nd, c ∈ cs ∧ top_level c = true
                 ∧ nodes F !! a = Some nd ∧ id (fields nd) = id c)
    ∧ (∀ nd a, nd ∈ nodes F → a ∈ children nd →
         ∃ c ch, c ∈ cs ∧ reply_to (fields nd) c = true
                 ∧ nodes F !! a = Some ch ∧ id (fields ch) = id c).
Proof.
  destruct (build_shape cs) as (m & Hm & HF).
  exists (built m cs). split; [done|].
  split; [unfold built; simpl; apply length_imap|]. split.
  - intros a (c & Hc & Hr)%list_elem_of_omap.
    unfold root_ref in Hr.
    destruct (truthy (parent_comment_id c)) eqn:Htr; [done|].
    destruct (index_sound _ _ Hm _ _ Hr) as (c' & Hc' & Hid).
    exists c, (mkNode c' (omap (child_ref m a) cs)).
    split; [done|]. split; [by unfold top_level; rewrite Htr|].
    split; [by rewrite built_lookup, Hc' | done].
  - intros nd a (j & Hj)%list_elem_of_lookup_1 Ha.
    rewrite built_lookup in Hj.
    destruct (cs !! j) as [d|] eqn:Hd; [|done]. injection Hj as <-.
    simpl in Ha. apply list_elem_of_omap in Ha as (c & Hc & Hr).
    unfold child_ref in Hr.
    destruct (truthy (parent_comment_id c)) eqn:Htr; [|done].
    destruct (parent_comment_id c) as [p|] eqn:Hp; [|done]. simpl in Hr.
    destruct (m !! p) as [pa|] eqn:Hpa; [|done].
    destruct (decide (pa = j)) as [->|]; [|done].
    destruct (index_sound _ _ Hm _ _ Hpa) as (d' & Hd' & Hidd).
    destruct (index_sound _ _ Hm _ _ Hr) as (c' & Hc' & Hidc).
    assert (d' = d) as -> by congruence.
    exists c, (mkNode c' (omap (child_ref m a) cs)).
    split; [done|]. split.
    + unfold reply_to. rewrite Hp, Htr. simpl.
      apply bool_decide_eq_true. congruence.
    + split; [by rewrite built_lookup, Hc' | done].
Qed.

(** ** Comments sharing an id *)

Lemma index_exact cs m k j :
  index_ok cs m → index_last cs m →
  m !! k = Some j ↔
  ∃ d, cs !! j = Some d ∧ id d = k ∧ overwritten cs j = false.
Proof.
  intros Hm Hlast. split.
  - intros Hk. destruct (index_sound _ _ Hm _ _ Hk) as (d & Hd & Hid).
    exists d. split; [done|]. split; [done|].
    unfold overwritten. rewrite Hd. apply bool_decide_eq_false.
    intros (c & (i & Hi)%list_elem_of_lookup_1 & Hc)%Exists_exists.
    rewrite lookup_drop in Hi.
    pose proof (Hlast k j _ c Hk Hi) as Hle. lapply Hle; [lia | congruence].
  - intros (d & Hd & Hid & Hover).
    destruct (index_total _ _ Hm d) as [a Ha];
      [by eapply list_elem_of_lookup_2|].
    destruct (index_sound _ _ Hm _ _ Ha) as (d' & Hd' & Hid').
    pose proof (Hlast _ _ _ _ Ha Hd eq_refl) as Hle.
    destruct (decide (a = j)) as [->|Hne]; [congruence|].
    exfalso. unfold overwritten in Hover. rewrite Hd in Hover.
    apply bool_decide_eq_false in Hover. apply Hover.
    apply Exists_exists. exists d'. split; [|done].
    apply list_elem_of_lookup. exists (a - S j)%nat.
    rewrite lookup_drop. by replace (S j + (a - S j))%nat with a by lia.
Qed.

(** X4: on every input, the entries of roots and of every children array
    are nodes made for the last comment carrying their id; the node made
    for an earlier comment with the same id is referenced nowhere.  Every
    input comment with a null or 0 parent id has the node of the last
    comment with its id among the roots. *)
Theorem X4_last_occurrence_wins (cs : list Comment) :
  ∃ F,
    buildCommentTree cs = Some F
    ∧ (∀ a, a ∈ roots F → overwritten cs a = false)
    ∧ (∀ nd a, nd ∈ nodes F → a ∈ children nd → overwritten cs a = false)
    ∧ (∀ c, c ∈ cs → top_level c = true →
         ∃ a, a ∈ roots F ∧ overwritten cs a = false
              ∧ id <$> deref F a = Some (id c)).
Proof.
  destruct (build_shape_last cs) as (m & Hm & Hlast & HF).
  exists (built m cs). split; [done|]. split; [|split].
  - intros a (c & Hc & Hr)%list_elem_of_omap. unfold root_ref in Hr.
    destruct (truthy (parent_comment_id c)); [done|].
    by apply (index_exact cs m _ _ Hm Hlast) in Hr as (d & _ & _ & ?).
  - intros nd a (j & Hj)%list_elem_of_lookup_1 Ha.
    rewrite built_lookup in Hj.
    destruct (cs !! j) as [d|] eqn:Hd; [|done]. injection Hj as <-.
    simpl in Ha. apply list_elem_of_omap in Ha as (c & Hc & Hr).
    unfold child_ref in Hr.
    destruct (truthy (parent_comment_id c)); [|done].
    destruct (parent_comment_id c ≫= (m !!.)) as [pa|]; [|done].
    destruct (decide (pa = j)); [|done].
    by apply (index_exact cs m _ _ Hm Hlast) in Hr as (d' & _ & _ & ?).
  - intros c Hc Htop. destruct (index_total _ _ Hm c Hc) as [a Ha].
    pose proof Ha as (d & Hd & Hid & Hover)%(index_exact cs m _ _ Hm Hlast).
    exists a. split; [|split; [done|]].
    + unfold built. simpl. apply list_elem_of_omap. exists c.
      split; [done|]. unfold root_ref. unfold top_level in Htop.
      by destruct (truthy (parent_comment_id c)).
    + by rewrite built_deref, Hd, <- Hid.
Qed.

Lemma filter_never {A : Type} (l : list A) :
  filter (λ _ : A, Is_true false) l = [].
Proof. induction l as [|x l IH]; [done|]. by rewrite filter_cons. Qed.

(** X5: on every input, [replyCount] of a node is the number of input
    comments that name the node's id as their non-zero parent (direct
    replies, not further descendants), unless a later comment with the same
    id replaced the node in the lookup table, in which case it is 0;
    [hasReplies] holds exactly when [replyCount] is positive. *)
Theorem X5_reply_count (cs : list Comment) :
  ∃ F,
    buildCommentTree cs = Some F
    ∧ ∀ j nd, nodes F !! j = Some nd →
        replyCount nd
        = (if overwritten cs j then 0%nat
           else length (filter (reply_to (fields nd)) cs))
        ∧ (hasReplies nd = true ↔ (0 < replyCount nd)%nat).
Proof.
  destruct (build_shape_last cs) as (m & Hm & Hlast & HF).
  exists (built m cs). split; [done|].
  intros j nd Hj. split.
  - rewrite replyCount_length. rewrite built_lookup in Hj.
    destruct (cs !! j) as [d|] eqn:Hd; [|done]. injection Hj as <-.
    cbn [children fields].
    assert (∀ c, c ∈ cs →
              is_Some (child_ref m j c) ↔
              reply_to d c = true ∧ overwritten cs j = false) as Hiff.
    { intros c Hc. unfold child_ref, reply_to.
      destruct (index_total _ _ Hm c Hc) as [self Hself].
      destruct (truthy (parent_comment_id c)); simpl; [|split; [by intros [? ?]|by intros [? _]]].
      destruct (parent_comment_id c) as [p|]; simpl;
        [|split; [by intros [? ?]|by intros [? _]]].
      rewrite bool_decide_eq_true. split.
      - destruct (m !! p) as [pa|] eqn:Hpa; [|by intros [? ?]].
        destruct (decide (pa = j)) as [->|]; [|by intros [? ?]].
        intros _.
        apply (index_exact cs m _ _ Hm Hlast) in Hpa as (d' & Hd' & Hid & ?).
        split; [congruence | done].
      - intros [[= ->] Hover].
        rewrite (proj2 (index_exact cs m (id d) j Hm Hlast)) by eauto.
        rewrite decide_True by done. eauto. }
    destruct (overwritten cs j) eqn:Hover.
    + rewrite (length_omap_filter _ (λ _, false)).
      * by rewrite filter_never.
      * intros c Hc. rewrite (Hiff c Hc). split; [by intros [_ ?] | done].
    + apply length_omap_filter. intros c Hc. rewrite (Hiff c Hc).
      split; [by intros [? _] | done].
  - rewrite replyCount_length. unfold hasReplies.
    by rewrite bool_decide_eq_true.
Qed.

(** ** X6: the order of the input *)

Lemma is_root_built_iff cs m c :
  index_ok cs m → NoDup (id <$> cs) →
  is_root (built m cs) c ↔ c ∈ cs ∧ top_level c = true.
Proof.
  intros Hm Huniq. unfold is_root, top_level. split.
  - intros (a & (c' & Hc' & Hf)%(roots_mem cs m Hm Huniq) & Hd).
    rewrite built_deref in Hd. assert (c' = c) as -> by congruence.
    split; [by eapply list_elem_of_lookup_2 | by rewrite Hf].
  - intros [(a & Ha)%list_elem_of_lookup_1 Hf%negb_true_iff].
    exists a. split; [|by rewrite built_deref].
    apply (roots_mem cs m Hm Huniq). by exists c.
Qed.

Lemma child_of_built cs m d c :
  index_ok cs m → NoDup (id <$> cs) →
  child_of (built m cs) d c ↔ d ∈ cs ∧ c ∈ cs ∧ reply_to d c = true.
Proof.
  intros Hm Huniq. unfold child_of. split.
  - intros (nd & a & (j & Hj)%list_elem_of_lookup_1 & Hf & Ha & Hd).
    assert (a ∈ kids (nodes (built m cs)) j) as Hk.
    { unfold kids. by rewrite Hj. }
    apply (kids_mem cs m Hm Huniq) in Hk as (c' & Hc' & Hr).
    rewrite built_deref in Hd. assert (c' = c) as -> by congruence.
    rewrite built_lookup in Hj.
    destruct (cs !! j) as [d'|] eqn:Hdj; [|done].
    injection Hj as <-. simpl in Hf. subst d'.
    unfold reply_at in Hr. rewrite Hdj in Hr.
    split; [by eapply list_elem_of_lookup_2|].
    split; [by eapply list_elem_of_lookup_2 | done].
  - intros ((j & Hj)%list_elem_of_lookup_1 & (a & Ha)%list_elem_of_lookup_1
            & Hr).
    exists (mkNode d (omap (child_ref m j) cs)), a.
    split; [|split; [done|split]].
    + apply list_elem_of_lookup. exists j. by rewrite built_lookup, Hj.
    + simpl. rewrite <- (kids_built cs m Hm Huniq).
      apply (kids_mem cs m Hm Huniq). exists c. split; [done|].
      unfold reply_at. by rewrite Hj.
    + by rewrite built_deref.
Qed.

Lemma find_by_id_perm cs cs' p :
  NoDup (id <$> cs) → cs ≡ₚ cs' → find_by_id cs p = find_by_id cs' p.
Proof.
  intros Huniq Hperm.
  assert (NoDup (id <$> cs')) as Huniq' by by rewrite <- Hperm.
  destruct (find_by_id cs p) as [d|] eqn:Hd.
  - symmetry. apply (find_by_id_unique cs' Huniq').
    apply (find_by_id_unique cs Huniq) in Hd as [Hin Hid].
    split; [by rewrite <- Hperm | done].
  - destruct (find_by_id cs' p) as [d'|] eqn:Hd'; [|done].
    apply (find_by_id_unique cs' Huniq') in Hd' as [Hin Hid].
    assert (find_by_id cs p = Some d') as Hd''; [|congruence].
    apply (find_by_id_unique cs Huniq). split; [by rewrite Hperm | done].
Qed.

Lemma thread_depth_perm fuel cs cs' :
  NoDup (id <$> cs) → cs ≡ₚ cs' →
  ∀ c, thread_depth fuel cs c = thread_depth fuel cs' c.
Proof.
  intros Huniq Hperm. induction fuel as [|fuel IH]; intros c; [done|].
  simpl. destruct (truthy (parent_comment_id c)); [|done].
  destruct (parent_comment_id c) as [p|]; [|done]. simpl.
  rewrite (find_by_id_perm cs cs' p Huniq Hperm).
  destruct (find_by_id cs' p) as [d|]; [|done]. simpl. by rewrite IH.
Qed.

Lemma attached_perm cs cs' c :
  NoDup (id <$> cs) → cs ≡ₚ cs' → attached cs c = attached cs' c.
Proof.
  intros Huniq Hperm. unfold attached.
  by rewrite (thread_depth_perm _ cs cs' Huniq Hperm), (Permutation_length Hperm).
Qed.

(** X6: for an input with unique ids, listing the same comments in another
    order changes neither which comments are roots, nor which comment is a
    child of which, nor the multiset of ids reachable in the forest. *)
Theorem X6_order_independent (cs cs' : list Comment) :
  NoDup (id <$> cs) → cs ≡ₚ cs' →
  ∃ F F' l l',
    buildCommentTree cs = Some F
    ∧ buildCommentTree cs' = Some F'
    ∧ (∀ c, is_root F c ↔ is_root F' c)
    ∧ (∀ d c, child_of F d c ↔ child_of F' d c)
    ∧ forest_ids (length cs) F = Some l
    ∧ forest_ids (length cs') F' = Some l'
    ∧ l ≡ₚ l'.
Proof.
  intros Huniq Hperm.
  assert (NoDup (id <$> cs')) as Huniq' by by rewrite <- Hperm.
  destruct (build_shape cs) as (m & Hm & HF).
  destruct (build_shape cs') as (m' & Hm' & HF').
  destruct (forest_ids_built cs m Hm Huniq) as (l & Hl & Hnd & Hmem).
  destruct (forest_ids_built cs' m' Hm' Huniq') as (l' & Hl' & Hnd' & Hmem').
  exists (built m cs), (built m' cs'), l, l'.
  split; [done|]. split; [done|]. split; [|split].
  - intros c. rewrite !is_root_built_iff by done. by rewrite Hperm.
  - intros d c. rewrite !child_of_built by done. by rewrite Hperm.
  - split; [done|]. split; [done|].
    apply NoDup_Permutation; [done..|].
    intros x. rewrite Hmem, Hmem'.
    split; intros (c & Hc & Hid & Hatt); exists c.
    + split; [by rewrite <- Hperm|]. split; [done|].
      by rewrite <- (attached_perm cs cs').
    + split; [by rewrite Hperm|]. split; [done|].
      by rewrite (attached_perm cs cs').
Qed.

Lemma X6_order_independent_witness :
  (NoDup (id <$> thread_input) ∧ thread_input ≡ₚ shuffled_input)
  ∧ ∃ F F' l l',
      buildCommentTree thread_input = Some F
      ∧ buildCommentTree shuffled_input = Some F'
      ∧ (∀ c, is_root F c ↔ is_root F' c)
      ∧ (∀ d c, child_of F d c ↔ child_of F' d c)
      ∧ forest_ids (length thread_input) F = Some l
      ∧ forest_ids (length shuffled_input) F' = Some l'
      ∧ l ≡ₚ l'.
Proof.
  split; [split; compute_done|].
  apply (X6_order_independent thread_input shuffled_input); compute_done.
Defined.

Example shuffled_input_forest :
  buildCommentTree shuffled_input
  = Some (mkForest
      [mkNode (sample 4 (Some 2) "d") [];
       mkNode (sample 2 (Some 1) "b") [0%nat];
       mkNode (sample 1 None "a") [1; 3]%nat;
       mkNode (sample 3 (Some 1) "c") []]
      [2%nat]).
Proof. reflexivity. Qed.

(** ** X7 to X9: rebuilding after one more comment *)

Lemma push_child_app pa a (s ex s1 : list Node) :
  push_child pa a s = Some s1 → push_child pa a (s ++ ex) = Some (s1 ++ ex).
Proof.
  unfold push_child. destruct (s !! pa) as [nd|] eqn:Hnd; [|done].
  simpl. intros [= <-].
  rewrite (lookup_app_l_Some _ _ _ _ Hnd). simpl.
  by rewrite insert_app_l by by eapply lookup_lt_Some.
Qed.

Lemma link_frame (m m' : gmap Z addr) c (s ex : list Node) (rs : list addr) s1 rs1 :
  m' !! id c = m !! id c →
  (truthy (parent_comment_id c) = true →
   parent_comment_id c ≫= (m' !!.) = parent_comment_id c ≫= (m !!.)) →
  link m c (s, rs) = Some (s1, rs1) →
  link m' c (s ++ ex, rs) = Some (s1 ++ ex, rs1).
Proof.
  intros Hself Hpar. unfold link. rewrite Hself.
  destruct (truthy (parent_comment_id c)).
  - rewrite Hpar by done.
    destruct (parent_comment_id c ≫= (m !!.)) as [pa|].
    + destruct (m !! id c) as [self|]; [|done]. simpl.
      destruct (push_child pa self s) as [s'|] eqn:Hpush; [|done].
      simpl. intros [= <- <-]. by rewrite (push_child_app _ _ _ _ _ Hpush).
    + by intros [= <- <-].
  - destruct (m !! id c) as [self|]; [|done]. simpl. by intros [= <- <-].
Qed.

Lemma forEach_link_frame (m m' : gmap Z addr) (ex : list Node) cs :
  ∀ (s : list Node) (rs : list addr) s' rs',
  (∀ c, c ∈ cs →
     m' !! id c = m !! id c
     ∧ (truthy (parent_comment_id c) = true →
        parent_comment_id c ≫= (m' !!.) = parent_comment_id c ≫= (m !!.))) →
  forEach (link m) cs (s, rs) = Some (s', rs') →
  forEach (link m') cs (s ++ ex, rs) = Some (s' ++ ex, rs').
Proof.
  induction cs as [|c cs IH]; intros s rs s' rs' Hagree Hrun.
  - simpl in *. by injection Hrun as <- <-.
  - cbn [forEach] in *.
    destruct (link m c (s, rs)) as [[s1 rs1]|] eqn:Hstep; [|done].
    destruct (Hagree c) as [Hself Hpar]; [by left|].
    rewrite (link_frame m m' c s ex rs s1 rs1 Hself Hpar Hstep).
    cbn [mbind option_bind] in *. apply IH; [|done].
    intros c' Hc'. apply Hagree. by right.
Qed.

(** Rebuilding after one more comment has arrived at the end of the list. *)
Lemma build_snoc cs c :
  id c ∉ id <$> cs →
  Forall (λ c', reply_to c c' = false) cs →
  ∃ m, index_ok cs m ∧ index_last cs m
       ∧ buildCommentTree cs = Some (built m cs)
       ∧ buildCommentTree (cs ++ [c])
         = (st ← link (<[id c := length cs]> m) c
                   (nodes (built m cs) ++ [mkNode c []], roots (built m cs));
            Some (mkForest st.1 st.2)).
Proof.
  intros Hfresh Hnoref.
  destruct (first_pass_last cs) as (m & Hrun & Hm & Hlast).
  pose proof (build_of_run cs m Hrun Hm) as HF.
  exists m. split; [done|]. split; [done|]. split; [done|].
  unfold buildCommentTree in HF. rewrite Hrun in HF. simpl in HF.
  destruct (forEach (link m) cs (fresh_nodes cs, [])) as [[s' rs']|] eqn:Hrun2;
    [|done].
  simpl in HF. injection HF as Hs Hr. subst s' rs'.
  unfold buildCommentTree. rewrite forEach_app, Hrun. simpl.
  unfold fresh_nodes at 1. rewrite length_fmap.
  rewrite forEach_app.
  erewrite (forEach_link_frame m (<[id c := length cs]> m) [mkNode c []]
              cs (fresh_nodes cs) []); [| |exact Hrun2].
  - assert (∀ o : option (list Node * list addr),
              (o ≫= λ st, Some st)
                ≫= (λ '(store', roots), Some (mkForest store' roots))
              = o ≫= λ st, Some (mkForest st.1 st.2)) as Haux
      by (by intros [[??]|]).
    exact (Haux (link (<[id c := length cs]> m) c _)).
  - intros c' Hc'.
    assert (id c ≠ id c') as Hne.
    { intros Heq. apply Hfresh. rewrite Heq. by apply list_elem_of_fmap_2. }
    split; [by rewrite lookup_insert_ne|].
    intros Htr. destruct (parent_comment_id c') as [p|] eqn:Hp; [|done].
    simpl. rewrite lookup_insert_ne; [done|].
    intros <-. pose proof (proj1 (Forall_forall _ _) Hnoref c' Hc') as Hr.
    unfold reply_to in Hr. rewrite Hp in *. rewrite Htr in Hr. simpl in Hr.
    by rewrite bool_decide_true in Hr.
Qed.

(** X7: when a comment with a null or 0 parent id is added at the end of
    the list, its id being new and named as non-zero parent by no comment
    of the list, the rebuilt forest is the old one with one more node
    without children and one more root, placed last. *)
Theorem X7_append_top_level (cs : list Comment) (c : Comment) :
  id c ∉ id <$> cs →
  Forall (λ c', reply_to c c' = false) cs →
  top_level c = true →
  ∃ F,
    buildCommentTree cs = Some F
    ∧ buildCommentTree (cs ++ [c])
      = Some (mkForest (nodes F ++ [mkNode c []]) (roots F ++ [length cs])).
Proof.
  intros Hfresh Hnoref Htop.
  destruct (build_snoc cs c Hfresh Hnoref) as (m & Hm & Hlast & HF & Hsnoc).
  exists (built m cs). split; [done|]. rewrite Hsnoc.
  unfold link. unfold top_level in Htop.
  destruct (truthy (parent_comment_id c)); [done|].
  by rewrite lookup_insert_eq.
Qed.

Lemma X7_append_top_level_witness :
  ((id (sample 9 None "new") ∉ id <$> thread_input)
   ∧ Forall (λ c', reply_to (sample 9 None "new") c' = false) thread_input
   ∧ top_level (sample 9 None "new") = true)
  ∧ ∃ F,
      buildCommentTree thread_input = Some F
      ∧ buildCommentTree (thread_input ++ [sample 9 None "new"])
        = Some (mkForest (nodes F ++ [mkNode (sample 9 None "new") []])
                  (roots F ++ [length thread_input])).
Proof.
  split; [repeat split; compute_done|].
  apply (X7_append_top_level thread_input (sample 9 None "new"));
    compute_done.
Defined.

(** X8: when a comment whose non-zero parent id is the id of a comment of
    the list is added at the end (its own id new and named as parent by
    nobody), the rebuilt forest is the old one with one more node without
    children, referenced last in the children of the node of the last
    comment carrying the parent id; the roots are unchanged. *)
Theorem X8_append_reply (cs : list Comment) (c : Comment) (p : Z) :
  id c ∉ id <$> cs →
  Forall (λ c', reply_to c c' = false) cs →
  parent_comment_id c = Some p → p ≠ 0 → p ∈ id <$> cs →
  ∃ F j nd,
    buildCommentTree cs = Some F
    ∧ nodes F !! j = Some nd
    ∧ id (fields nd) = p
    ∧ overwritten cs j = false
    ∧ buildCommentTree (cs ++ [c])
      = Some (mkForest
                (<[j := mkNode (fields nd) (children nd ++ [length cs])]>
                   (nodes F) ++ [mkNode c []])
                (roots F)).
Proof.
  intros Hfresh Hnoref Hp Hp0 Hin.
  destruct (build_snoc cs c Hfresh Hnoref) as (m & Hm & Hlast & HF & Hsnoc).
  destruct (proj2 (index_resolves cs m p Hm) Hin) as [j Hj].
  pose proof Hj as (d & Hd & Hid & Hover)%(index_exact cs m _ _ Hm Hlast).
  exists (built m cs), j, (mkNode d (omap (child_ref m j) cs)).
  split; [done|]. split; [by rewrite built_lookup, Hd|]. split; [done|].
  split; [done|].
  rewrite Hsnoc. unfold link. rewrite Hp. simpl.
  rewrite (proj2 (Z.eqb_neq p 0) Hp0). simpl.
  assert (id c ≠ p) as Hne by (intros Heq; apply Hfresh; by rewrite Heq).
  rewrite lookup_insert_ne, Hj, lookup_insert_eq by done. simpl.
  unfold push_child.
  rewrite (lookup_app_l_Some _ _ j (mkNode d (omap (child_ref m j) cs)));
    [|by rewrite list_lookup_imap, Hd].
  simpl. rewrite insert_app_l; [done|].
  rewrite length_imap. by eapply lookup_lt_Some.
Qed.

Lemma X8_append_reply_witness :
  ((id (sample 9 (Some 2) "new") ∉ id <$> thread_input)
   ∧ Forall (λ c', reply_to (sample 9 (Some 2) "new") c' = false) thread_input
   ∧ parent_comment_id (sample 9 (Some 2) "new") = Some 2
   ∧ 2 ≠ 0 ∧ (2 ∈ id <$> thread_input))
  ∧ ∃ F j nd,
      buildCommentTree thread_input = Some F
      ∧ nodes F !! j = Some nd
      ∧ id (fields nd) = 2
      ∧ overwritten thread_input j = false
      ∧ buildCommentTree (thread_input ++ [sample 9 (Some 2) "new"])
        = Some (mkForest
                  (<[j := mkNode (fields nd)
                            (children nd ++ [length thread_input])]>
                     (nodes F) ++ [mkNode (sample 9 (Some 2) "new") []])
                  (roots F)).
Proof.
  split; [repeat split; compute_done|].
  apply (X8_append_reply thread_input (sample 9 (Some 2) "new") 2);
    compute_done.
Defined.

(** X9: when a comment is added at the end of the list, its own id being
    new and named as non-zero parent by no comment of the list, and its
    non-zero parent id is the id of no comment of the list, the rebuilt
    forest has one more node and no new reference from the old ones: roots
    and the other nodes are unchanged, and the new node is its own only
    child when it names itself as parent, and has no child otherwise. *)
Theorem X9_append_unresolved_reply (cs : list Comment) (c : Comment) (p : Z) :
  id c ∉ id <$> cs →
  Forall (λ c', reply_to c c' = false) cs →
  parent_comment_id c = Some p → p ≠ 0 → p ∉ id <$> cs →
  ∃ F,
    buildCommentTree cs = Some F
    ∧ buildCommentTree (cs ++ [c])
      = Some (mkForest
                (nodes F
                 ++ [mkNode c (if decide (p = id c) then [length cs] else [])])
                (roots F)).
Proof.
  intros Hfresh Hnoref Hp Hp0 Hnotin.
  destruct (build_snoc cs c Hfresh Hnoref) as (m & Hm & Hlast & HF & Hsnoc).
  exists (built m cs). split; [done|].
  rewrite Hsnoc. unfold link. rewrite Hp. simpl.
  rewrite (proj2 (Z.eqb_neq p 0) Hp0). simpl.
  destruct (decide (p = id c)) as [->|Hne].
  - rewrite lookup_insert_eq. simpl. unfold push_child.
    assert (length (imap (λ j c0, mkNode c0 (omap (child_ref m j) cs)) cs)
            = length cs) as Hlen by apply length_imap.
    rewrite lookup_app_r by lia. rewrite Hlen, Nat.sub_diag. simpl.
    rewrite insert_app_r_alt by lia. rewrite Hlen, Nat.sub_diag. done.
  - rewrite lookup_insert_ne by done.
    destruct (m !! p) as [j|] eqn:Hj; [|done].
    exfalso. apply Hnotin. apply (index_resolves cs m p Hm). eauto.
Qed.

Lemma X9_append_unresolved_reply_witness :
  ((id (sample 9 (Some 77) "new") ∉ id <$> thread_input)
   ∧ Forall (λ c', reply_to (sample 9 (Some 77) "new") c' = false)
       thread_input
   ∧ parent_comment_id (sample 9 (Some 77) "new") = Some 77
   ∧ 77 ≠ 0 ∧ (77 ∉ id <$> thread_input))
  ∧ ∃ F,
      buildCommentTree thread_input = Some F
      ∧ buildCommentTree (thread_input ++ [sample 9 (Some 77) "new"])
        = Some (mkForest
                  (nodes F
                   ++ [mkNode (sample 9 (Some 77) "new")
                         (if decide (77 = id (sample 9 (Some 77) "new"))
                          then [length thread_input] else [])])
                  (roots F)).
Proof.
  split; [repeat split; compute_done|].
  apply (X9_append_unresolved_reply thread_input (sample 9 (Some 77) "new") 77);
    compute_done.
Defined.

(** ** X10 to X12: the forms *)

Lemma truthy_str_Some s : truthy_str (Some s) = negb (bool_decide (s = EmptyString)).
Proof. by destruct s. Qed.

(** X10: submitting the comment form.  With a text that trims to the empty
    string nothing happens.  Otherwise the text field is cleared in every
    case; without a signed-in user with non-empty id and name the login
    error is thrown and no insert is issued; with one, exactly one row is
    inserted, with the text as typed (untrimmed), a null parent and the
    user's id and name, and the mutation fails exactly when the store
    reports an error. *)
Theorem X10_comment_form
    (trim : string → string)
    (respond : list InsertRow → InsertRow → option string)
    (user : option User.t) (postId : Z) (text : string)
    (log : list InsertRow) :
  (trim text = EmptyString →
     handleSubmit trim respond user postId text log = (text, None, log))
  ∧ (trim text ≠ EmptyString → logged_in user = false →
       handleSubmit trim respond user postId text log
       = (EmptyString, Some (Thrown "You must be logged in to comment."), log))
  ∧ (trim text ≠ EmptyString → logged_in user = true →
       ∃ uid name,
         user = Some (User.mk uid (Some name))
         ∧ handleSubmit trim respond user postId text log
           = (EmptyString,
              Some (match respond log (mkInsertRow postId text None uid name)
                    with
                    | Some message => Thrown message
                    | None => Fulfilled
                    end),
              log ++ [mkInsertRow postId text None uid name])).
Proof.
  unfold handleSubmit, mutate, createComment. rewrite truthy_str_Some, negb_involutive.
  split; [|split].
  - intros ->. done.
  - intros Hne Hlog. rewrite bool_decide_false by done.
    unfold logged_in in Hlog.
    destruct (truthy_str (User.id <$> user)), (truthy_str (user ≫= User.user_name));
      simpl in *; done.
  - intros Hne Hlog. rewrite bool_decide_false by done.
    destruct user as [[uid [name|]]|];
      [|exfalso; unfold logged_in in Hlog; simpl in Hlog;
        by rewrite andb_false_r in Hlog | done].
    exists uid, name. split; [done|].
    destruct uid as [|a uid]; [done|].
    destruct name as [|b name]; [done|].
    unfold insert. simpl.
    by destruct (respond log _).
Qed.

(** X11: submitting the reply form of a comment.  With a text that trims to
    the empty string nothing happens.  Otherwise, without a signed-in user
    the login error is thrown, no insert is issued and the state is kept;
    with one, exactly one row is inserted whose parent is the id of the
    comment replied to and whose content is the text as typed; the reply
    text is cleared and the form closed only when the store accepts the
    row, and [isCollapsed] is never changed. *)
Theorem X11_reply_form
    (trim : string → string)
    (respond : list InsertRow → InsertRow → option string)
    (user : option User.t) (postId : Z) (comment : Node) (st : ItemState)
    (log : list InsertRow) :
  (trim (replyText st) = EmptyString →
     handleReplySubmit trim respond user postId comment st log
     = (st, None, log))
  ∧ (trim (replyText st) ≠ EmptyString → logged_in user = false →
       handleReplySubmit trim respond user postId comment st log
       = (st, Some (Thrown "You must be logged in to reply."), log))
  ∧ (trim (replyText st) ≠ EmptyString → logged_in user = true →
       ∃ uid name,
         user = Some (User.mk uid (Some name))
         ∧ handleReplySubmit trim respond user postId comment st log
           = (match respond log
                      (mkInsertRow postId (replyText st)
                         (Some (id (fields comment))) uid name)
              with
              | Some message => (st, Some (Thrown message))
              | None =>
                  (mkItemState false EmptyString (isCollapsed st),
                   Some Fulfilled)
              end,
              log ++ [mkInsertRow postId (replyText st)
                        (Some (id (fields comment))) uid name])).
Proof.
  unfold handleReplySubmit, mutate, createReply.
  rewrite truthy_str_Some, negb_involutive.
  split; [|split].
  - intros ->. done.
  - intros Hne Hlog. rewrite bool_decide_false by done.
    unfold logged_in in Hlog.
    destruct (truthy_str (User.id <$> user)),
      (truthy_str (user ≫= User.user_name)); simpl in *; done.
  - intros Hne Hlog. rewrite bool_decide_false by done.
    destruct user as [[uid [name|]]|];
      [|exfalso; unfold logged_in in Hlog; simpl in Hlog;
        by rewrite andb_false_r in Hlog | done].
    exists uid, name. split; [done|].
    destruct uid as [|a uid]; [done|].
    destruct name as [|b name]; [done|].
    unfold insert. simpl.
    by destruct (respond log _).
Qed.

(** X12: [createComment] and [createReply] leave the log of inserts
    unchanged and throw their login error when the user id or the author is
    absent or the empty string; otherwise each adds exactly one row with the
    given post, user id and author.  The row of [createComment] never
    carries a parent id of 0 (0 and undefined become null), the row of
    [createReply] carries the given parent id as it is. *)
Theorem X12_insert_when_logged_in
    (respond : list InsertRow → InsertRow → option string)
    (newComment : NewComment) (replyContent : string)
    (postId parentCommentId : Z) (userId author : option string)
    (log : list InsertRow) :
  (truthy_str userId && truthy_str author = false →
     createComment respond newComment postId userId author log
       = (Thrown "You must be logged in to comment.", log)
     ∧ createReply respond replyContent postId parentCommentId userId author log
       = (Thrown "You must be logged in to reply.", log))
  ∧ (truthy_str userId && truthy_str author = true →
       ∃ uid name parent,
         userId = Some uid ∧ author = Some name
         ∧ parent ≠ Some 0
         ∧ (parent = new_parent_comment_id newComment ∨ parent = None)
         ∧ (createComment respond newComment postId userId author log).2
           = log ++ [mkInsertRow postId (new_content newComment) parent
                       uid name]
         ∧ (createReply respond replyContent postId parentCommentId
              userId author log).2
           = log ++ [mkInsertRow postId replyContent (Some parentCommentId)
                       uid name]).
Proof.
  unfold createComment, createReply. split.
  - intros Hok.
    destruct (truthy_str userId), (truthy_str author); simpl in *; done.
  - intros [Hu Ha]%andb_prop. rewrite Hu, Ha. simpl.
    destruct userId as [uid|]; [|done]. destruct author as [name|]; [|done].
    exists uid, name,
      (if truthy (new_parent_comment_id newComment)
       then new_parent_comment_id newComment else None).
    split; [done|]. split; [done|]. split; [|split].
    + destruct (new_parent_comment_id newComment) as [[]|]; simpl; done.
    + destruct (truthy (new_parent_comment_id newComment)); auto.
    + unfold insert. simpl. split.
      * by destruct (respond log _).
      * by destruct (respond log _).
Qed.

(** Texts without surrounding white space, on which trimming changes
    nothing. *)
Example comment_form_posts :
  handleSubmit (λ s, s) (λ _ _, None) (Some (User.mk "u1" (Some "ann"))) 7
    "hello" []
  = (EmptyString, Some Fulfilled, [mkInsertRow 7 "hello" None "u1" "ann"]).
Proof. reflexivity. Qed.

Example comment_form_signed_out_loses_text :
  handleSubmit (λ s, s) (λ _ _, None) None 7 "hello" []
  = (EmptyString, Some (Thrown "You must be logged in to comment."), []).
Proof. reflexivity. Qed.

Example reply_form_keeps_text_on_error :
  handleReplySubmit (λ s, s) (λ _ _, Some "denied")
    (Some (User.mk "u1" (Some "ann"))) 7
    (mkNode (sample 3 None "c") []) (mkItemState true "hi" false) []
  = (mkItemState true "hi" false, Some (Thrown "denied"),
     [mkInsertRow 7 "hi" (Some 3) "u1" "ann"]).
Proof. reflexivity. Qed.

Example reply_form_closes_on_success :
  handleReplySubmit (λ s, s) (λ _ _, None)
    (Some (User.mk "u1" (Some "ann"))) 7
    (mkNode (sample 3 None "c") []) (mkItemState true "hi" true) []
  = (mkItemState false EmptyString true, Some Fulfilled,
     [mkInsertRow 7 "hi" (Some 3) "u1" "ann"]).
Proof. reflexivity. Qed.

(** ** C3, continued: where the builder and the reference algorithm part *)











Example zero_input_not_well_linked :
  ¬ Forall (λ c, well_linked zero_input c = true) zero_input.
Proof. compute_done. Qed.

Example panel_error_hides_threads :
  comments_panel false (Some "fetch failed") (Some thread_input)
  = Some (ErrorPanel "fetch failed").
Proof. reflexivity. Qed.

Example panel_only_replies :
  comments_panel false None (Some [sample 5 (Some 999) "orphan"])
  = Some NoCommentsYet
  ∧ totalComments (Some [sample 5 (Some 999) "orphan"]) = 1%nat.
Proof. split; reflexivity. Qed.
